(** * Whispering: the transcription orchestrator

    A shallow embedding of [apps/whispering/src/lib/query/transcription.ts]:
    the single-item mutation [transcribeRecording], the batch mutation
    [transcribeRecordings] and the helper [transcribeBlob] they share.

    The TypeScript code is asynchronous and talks to five collaborators (the
    settings store, the recordings store, the notification sink, the
    analytics sink and the provider adapters).  Programs are therefore
    written in a small free monad [Prog] whose operations are the calls the
    source makes; an interpreter runs a program against a [World] that
    answers every call, and returns the value of the program together with
    the trace of the calls it made. *)

From Stdlib Require Import ZArith.
From stdpp Require Import base list strings.

Local Open Scope Z_scope.
Local Open Scope string_scope.
Local Open Scope list_scope.

(** ** Data model *)

(** [Result<T, E>] of wellcrafted: [{ data, error: null }] or
    [{ data: null, error }]. *)
Inductive Result (T E : Type) : Type :=
| Ok (data : T)
| Err (error : E).
Arguments Ok {T E} data.
Arguments Err {T E} error.

Definition isOk {T E} (r : Result T E) : bool :=
  match r with Ok _ => true | Err _ => false end.

Definition isErr {T E} (r : Result T E) : bool :=
  match r with Ok _ => false | Err _ => true end.

(** Modelled from the spec: the declaration of [WhisperingError] (module
    [$lib/result]) is not part of the sources.  The spec gives a failure a
    kind, a title and a description; the source builds one from a title and
    a description. *)
Record WhisperingError : Type := {
  kind : string;
  title : string;
  description : string
}.

Definition TranscriptionResult : Type := Result string WhisperingError.

(** Modelled from the spec: the constructor [WhisperingErr] of [$lib/result]
    is not part of the sources; it wraps its arguments in an [Err] tagged as
    a Whispering error. *)
Definition WhisperingErr {T} (t d : string) : Result T WhisperingError :=
  Err {| kind := "WhisperingError"; title := t; description := d |}.

(** The audio payload; only its size is ever inspected. *)
Record Blob : Type := { blob_bytes : list Byte.byte }.

Definition blob_size (b : Blob) : Z := Z.of_nat (length (blob_bytes b)).

Inductive TranscriptionStatus : Type :=
| UNTRANSCRIBED
| TRANSCRIBING
| DONE
| FAILED.

(** Modelled from the spec: the declaration of [Recording] (module
    [$lib/services/db]) is not part of the sources.  The spec lists a stable
    identifier, an audio payload that may be absent, the transcription
    status, and a transcribed text that may be absent. *)
Record Recording : Type := {
  rec_id : string;
  blob : option Blob;
  transcriptionStatus : TranscriptionStatus;
  transcribedText : option string
}.

(** [{ ...recording, transcriptionStatus: s }] *)
Definition with_status (recording : Recording) (s : TranscriptionStatus)
  : Recording :=
  {| rec_id := rec_id recording;
     blob := blob recording;
     transcriptionStatus := s;
     transcribedText := transcribedText recording |}.

(** [{ ...recording, transcribedText, transcriptionStatus: s }] *)
Definition with_text_status (recording : Recording) (text : string)
    (s : TranscriptionStatus) : Recording :=
  {| rec_id := rec_id recording;
     blob := blob recording;
     transcriptionStatus := s;
     transcribedText := Some text |}.

(** The keys of [settings.value] that [transcribeBlob] reads. *)
Record Settings : Type := {
  selectedTranscriptionService : string;
  outputLanguage : string;
  prompt : string;
  temperature : string;
  apiKeys_openai : string;
  apiKeys_groq : string;
  apiKeys_elevenlabs : string;
  apiKeys_deepgram : string;
  apiEndpoints_openai : string;
  apiEndpoints_groq : string;
  openai_model : string;
  groq_model : string;
  elevenlabs_model : string;
  deepgram_model : string;
  speaches_modelId : string;
  speaches_baseUrl : string;
  whispercpp_modelPath : string;
  whispercpp_useGpu : bool
}.

(** JavaScript truthiness of a string: every string but the empty one. *)
Definition truthy (s : string) : bool := negb (String.eqb s "").

(** The options object handed to an adapter.  Every adapter receives the
    three shared options; the other properties are present or not depending
    on the adapter. *)
Record Config : Type := {
  cfg_outputLanguage : string;
  cfg_prompt : string;
  cfg_temperature : string;
  cfg_apiKey : option string;
  cfg_modelName : option string;
  cfg_baseURL : option string;
  cfg_modelId : option string;
  cfg_baseUrl : option string;
  cfg_modelPath : option string;
  cfg_useGpu : option bool
}.

(** The members of [services.transcriptions]. *)
Inductive Adapter : Type :=
| nativeOpenai
| openai
| groq
| speaches
| elevenlabs
| deepgram
| whispercpp.

(** One call [services.transcriptions.<adapter>.transcribe(blob, options)]. *)
Record AdapterCall : Type := {
  call_adapter : Adapter;
  call_blob : Blob;
  call_options : Config
}.

(** The payloads of [rpc.analytics.logEvent.execute]. *)
Inductive AnalyticsEvent : Type :=
| transcription_requested (provider : string)
| transcription_failed (provider : string)
    (error_title error_description : string)
| transcription_completed (provider : string) (duration : Z).

(** The error of a failed [recordings.updateRecording]. *)
Record DbError : Type := { db_message : string }.

(** The error of a failed emission to the notification or analytics sink. *)
Record SinkError : Type := { sink_message : string }.

(** The argument of [notify.warning.execute]; the action is always
    [{ type: 'more-details', error }]. *)
Record Notification : Type := {
  n_title : string;
  n_description : string;
  n_more_details : DbError
}.

(** The three console lines of [transcribeBlob].  The first one prints the
    blob size formatted in megabytes; the size in bytes is kept here. *)
Inductive ConsoleLine : Type :=
| console_starting (provider : string) (blobSize : Z) (hasBlob : bool)
| console_failed (provider : string) (duration : Z) (error : WhisperingError)
| console_completed (provider : string) (duration : Z) (textLength : nat).

(** ** Programs *)

(** A program is a tree of calls to the collaborators.  [UpdateRecording] and
    [Transcribe] are the calls whose promise the source awaits: the program
    is suspended until the collaborator answers.  [LogEvent] and
    [NotifyWarning] are started and not awaited; their outcome is handed to
    the continuation all the same, so that a program could depend on it.
    [Tick] is the suspension every [await] causes even when the awaited
    promise is already settled: the rest of the async function runs in a
    later turn of the event loop, after whatever else was ready. *)
Inductive Prog (A : Type) : Type :=
| Ret (a : A)
| ReadSettings (k : Settings -> Prog A)
| DateNow (k : Z -> Prog A)
| ConsoleLog (l : ConsoleLine) (k : Prog A)
| LogEvent (e : AnalyticsEvent) (k : Result unit SinkError -> Prog A)
| NotifyWarning (n : Notification) (k : Result unit SinkError -> Prog A)
| UpdateRecording (r : Recording) (k : Result unit DbError -> Prog A)
| Transcribe (c : AdapterCall) (k : TranscriptionResult -> Prog A)
| Tick (k : Prog A).
Arguments Ret {A} a.
Arguments ReadSettings {A} k.
Arguments DateNow {A} k.
Arguments ConsoleLog {A} l k.
Arguments LogEvent {A} e k.
Arguments NotifyWarning {A} n k.
Arguments UpdateRecording {A} r k.
Arguments Transcribe {A} c k.
Arguments Tick {A} k.

Fixpoint bind {A B} (m : Prog A) (f : A -> Prog B) : Prog B :=
  match m with
  | Ret a => f a
  | ReadSettings k => ReadSettings (fun s => bind (k s) f)
  | DateNow k => DateNow (fun t => bind (k t) f)
  | ConsoleLog l k => ConsoleLog l (bind k f)
  | LogEvent e k => LogEvent e (fun x => bind (k x) f)
  | NotifyWarning n k => NotifyWarning n (fun x => bind (k x) f)
  | UpdateRecording r k => UpdateRecording r (fun x => bind (k x) f)
  | Transcribe c k => Transcribe c (fun x => bind (k x) f)
  | Tick k => Tick (bind k f)
  end.

Notation "'let*' x ':=' m 'in' k" := (bind m (fun x => k))
  (at level 10, x pattern, m at level 100, k at level 200).

(** [await m] *)
Definition await {A} (m : Prog A) : Prog A :=
  let* x := m in Tick (Ret x).

Definition readSettings : Prog Settings := ReadSettings Ret.
Definition dateNow : Prog Z := DateNow Ret.
Definition consoleLog (l : ConsoleLine) : Prog unit := ConsoleLog l (Ret tt).
Definition logEvent (e : AnalyticsEvent) : Prog (Result unit SinkError) :=
  LogEvent e Ret.
Definition notifyWarning (n : Notification) : Prog (Result unit SinkError) :=
  NotifyWarning n Ret.
Definition updateRecording (r : Recording) : Prog (Result unit DbError) :=
  UpdateRecording r Ret.
Definition transcribe (a : Adapter) (b : Blob) (o : Config)
  : Prog TranscriptionResult :=
  Transcribe {| call_adapter := a; call_blob := b; call_options := o |} Ret.

(** The options every adapter receives. *)
Definition shared_options (s : Settings) : Config :=
  {| cfg_outputLanguage := outputLanguage s;
     cfg_prompt := prompt s;
     cfg_temperature := temperature s;
     cfg_apiKey := None; cfg_modelName := None; cfg_baseURL := None;
     cfg_modelId := None; cfg_baseUrl := None; cfg_modelPath := None;
     cfg_useGpu := None |}.

Definition set_apiKey_model (o : Config) (key model : string) : Config :=
  {| cfg_outputLanguage := cfg_outputLanguage o;
     cfg_prompt := cfg_prompt o;
     cfg_temperature := cfg_temperature o;
     cfg_apiKey := Some key; cfg_modelName := Some model;
     cfg_baseURL := cfg_baseURL o;
     cfg_modelId := cfg_modelId o; cfg_baseUrl := cfg_baseUrl o;
     cfg_modelPath := cfg_modelPath o; cfg_useGpu := cfg_useGpu o |}.

Definition set_baseURL (o : Config) (url : string) : Config :=
  {| cfg_outputLanguage := cfg_outputLanguage o;
     cfg_prompt := cfg_prompt o;
     cfg_temperature := cfg_temperature o;
     cfg_apiKey := cfg_apiKey o; cfg_modelName := cfg_modelName o;
     cfg_baseURL := Some url;
     cfg_modelId := cfg_modelId o; cfg_baseUrl := cfg_baseUrl o;
     cfg_modelPath := cfg_modelPath o; cfg_useGpu := cfg_useGpu o |}.

Definition set_speaches (o : Config) (modelId baseUrl : string) : Config :=
  {| cfg_outputLanguage := cfg_outputLanguage o;
     cfg_prompt := cfg_prompt o;
     cfg_temperature := cfg_temperature o;
     cfg_apiKey := cfg_apiKey o; cfg_modelName := cfg_modelName o;
     cfg_baseURL := cfg_baseURL o;
     cfg_modelId := Some modelId; cfg_baseUrl := Some baseUrl;
     cfg_modelPath := cfg_modelPath o; cfg_useGpu := cfg_useGpu o |}.

Definition set_whispercpp (o : Config) (modelPath : string) (useGpu : bool)
  : Config :=
  {| cfg_outputLanguage := cfg_outputLanguage o;
     cfg_prompt := cfg_prompt o;
     cfg_temperature := cfg_temperature o;
     cfg_apiKey := cfg_apiKey o; cfg_modelName := cfg_modelName o;
     cfg_baseURL := cfg_baseURL o;
     cfg_modelId := cfg_modelId o; cfg_baseUrl := cfg_baseUrl o;
     cfg_modelPath := Some modelPath; cfg_useGpu := Some useGpu |}.

Definition noServiceSelected : TranscriptionResult :=
  WhisperingErr "⚠️ No transcription service selected"
                "Please select a transcription service in settings.".

Definition blobNotFound : TranscriptionResult :=
  WhisperingErr "⚠️ Recording blob not found"
                "Your recording doesn't have a blob to transcribe.".

(** The [switch (selectedService)] of [transcribeBlob] (the body of the
    immediately invoked async function), on the settings read by the
    caller.  Every case but the default one is [return await ...]. *)
Definition selectAndTranscribe (s : Settings) (blob : Blob)
  : Prog TranscriptionResult :=
  let selectedService := selectedTranscriptionService s in
  if String.eqb selectedService "OpenAI" then
    if truthy (apiEndpoints_openai s) then
      await (transcribe nativeOpenai blob
               (set_baseURL
                  (set_apiKey_model (shared_options s)
                     (apiKeys_openai s) (openai_model s))
                  (apiEndpoints_openai s)))
    else
      await (transcribe openai blob
               (set_apiKey_model (shared_options s)
                  (apiKeys_openai s) (openai_model s)))
  else if String.eqb selectedService "Groq" then
    await (transcribe groq blob
             (let o := set_apiKey_model (shared_options s)
                         (apiKeys_groq s) (groq_model s) in
              if truthy (apiEndpoints_groq s)
              then set_baseURL o (apiEndpoints_groq s) else o))
  else if String.eqb selectedService "speaches" then
    await (transcribe speaches blob
             (set_speaches (shared_options s)
                (speaches_modelId s) (speaches_baseUrl s)))
  else if String.eqb selectedService "ElevenLabs" then
    await (transcribe elevenlabs blob
             (set_apiKey_model (shared_options s)
                (apiKeys_elevenlabs s) (elevenlabs_model s)))
  else if String.eqb selectedService "Deepgram" then
    await (transcribe deepgram blob
             (set_apiKey_model (shared_options s)
                (apiKeys_deepgram s) (deepgram_model s)))
  else if String.eqb selectedService "whispercpp" then
    await (transcribe whispercpp blob
             (set_whispercpp (shared_options s)
                (whispercpp_modelPath s) (whispercpp_useGpu s)))
  else
    Ret noServiceSelected.

(** [transcribeBlob(blob)].  The source reads [settings.value] several
    times, all of them in one turn of the event loop (up to the call of
    the adapter), so one reading of the settings stands for them. *)
Definition transcribeBlob (blob : Blob) : Prog TranscriptionResult :=
  let* s := readSettings in
  let selectedService := selectedTranscriptionService s in
  let* startTime := dateNow in
  let* _ := consoleLog
              (console_starting selectedService (blob_size blob) true) in
  let* _ := logEvent (transcription_requested selectedService) in
  let* transcriptionResult := await (selectAndTranscribe s blob) in
  let* now := dateNow in
  let duration := now - startTime in
  let* _ :=
    match transcriptionResult with
    | Err error =>
        let* _ := consoleLog (console_failed selectedService duration error) in
        let* _ := logEvent
                    (transcription_failed selectedService
                       (title error) (description error)) in
        Ret tt
    | Ok data =>
        let* _ := consoleLog
                    (console_completed selectedService duration
                       (String.length data)) in
        let* _ := logEvent
                    (transcription_completed selectedService duration) in
        Ret tt
    end in
  Ret transcriptionResult.

(** The warning sent when the write of status TRANSCRIBING fails. *)
Definition warnTranscribing (e : DbError) : Notification :=
  {| n_title :=
       "⚠️ Unable to set recording transcription status to transcribing";
     n_description := "Continuing with the transcription process...";
     n_more_details := e |}.

(** The warning sent when the write of status FAILED fails. *)
Definition warnFailed (e : DbError) : Notification :=
  {| n_title := "⚠️ Unable to update recording after transcription";
     n_description :=
       "Transcription failed but unable to update recording's transcription status in database";
     n_more_details := e |}.

(** The warning sent when the write of status DONE fails. *)
Definition warnDone (e : DbError) : Notification :=
  {| n_title := "⚠️ Unable to update recording after transcription";
     n_description :=
       "Transcription completed but unable to update recording's transcribed text and status in database";
     n_more_details := e |}.

(** [if (error) { notify.warning.execute(...) }] *)
Definition warnOnError (res : Result unit DbError)
    (warning : DbError -> Notification) : Prog unit :=
  match res with
  | Err e => let* _ := notifyWarning (warning e) in Ret tt
  | Ok _ => Ret tt
  end.

(** The [resultMutationFn] of [transcription.transcribeRecording]; the
    wrapper [defineMutation] is not part of the sources. *)
Definition transcribeRecording (recording : Recording)
  : Prog TranscriptionResult :=
  match blob recording with
  | None => Ret blobNotFound
  | Some recordingBlob =>
      let* setTranscribing :=
        await (updateRecording (with_status recording TRANSCRIBING)) in
      let* _ := warnOnError setTranscribing warnTranscribing in
      let* transcribed := await (transcribeBlob recordingBlob) in
      match transcribed with
      | Err transcribeError =>
          let* setFailed :=
            await (updateRecording (with_status recording FAILED)) in
          let* _ := warnOnError setFailed warnFailed in
          Ret (Err transcribeError)
      | Ok text =>
          let* setDone :=
            await (updateRecording (with_text_status recording text DONE)) in
          let* _ := warnOnError setDone warnDone in
          Ret (Ok text)
      end
  end.

(** The async callback that [transcribeRecordings] maps over its input. *)
Definition transcribeItem (recording : Recording) : Prog TranscriptionResult :=
  match blob recording with
  | None => Ret blobNotFound
  | Some recordingBlob => await (transcribeBlob recordingBlob)
  end.

(** ** Traces and worlds *)

(** What an observer of the collaborators sees.  An awaited call shows as
    two events, the call and its answer. *)
Inductive Event : Type :=
| EvSettings (s : Settings)
| EvNow (t : Z)
| EvConsole (l : ConsoleLine)
| EvLogEvent (e : AnalyticsEvent)
| EvNotify (n : Notification)
| EvUpdateCall (r : Recording)
| EvUpdateRet (r : Recording) (res : Result unit DbError)
| EvTranscribeCall (c : AdapterCall)
| EvTranscribeRet (c : AdapterCall) (res : TranscriptionResult).

Definition Trace : Type := list Event.

(** The collaborators.  Each answer may depend on everything that happened
    before (the history, oldest event first), so a world can fail the second
    write only, change the settings between two reads, and so on. *)
Record World : Type := {
  settings_value : Trace -> Settings;
  date_now : Trace -> Z;
  logEvent_outcome : Trace -> AnalyticsEvent -> Result unit SinkError;
  notify_outcome : Trace -> Notification -> Result unit SinkError;
  updateRecording_outcome : Trace -> Recording -> Result unit DbError;
  transcribe_outcome : Trace -> AdapterCall -> TranscriptionResult
}.

(** Prefix the events of a step to the events of what follows. *)
Definition emit {A} (evs : Trace) (x : A * Trace) : A * Trace :=
  (x.1, evs ++ x.2).

(** The recordings handed to the status store, oldest first. *)
Fixpoint status_writes (tr : Trace) : list Recording :=
  match tr with
  | [] => []
  | EvUpdateCall r :: tr' => r :: status_writes tr'
  | _ :: tr' => status_writes tr'
  end.

(** The answers of the status store. *)
Fixpoint status_write_outcomes (tr : Trace) : list (Result unit DbError) :=
  match tr with
  | [] => []
  | EvUpdateRet _ res :: tr' => res :: status_write_outcomes tr'
  | _ :: tr' => status_write_outcomes tr'
  end.

(** The adapter calls made. *)
Fixpoint adapter_calls (tr : Trace) : list AdapterCall :=
  match tr with
  | [] => []
  | EvTranscribeCall c :: tr' => c :: adapter_calls tr'
  | _ :: tr' => adapter_calls tr'
  end.

(** The answers of the adapters. *)
Fixpoint adapter_returns (tr : Trace) : list TranscriptionResult :=
  match tr with
  | [] => []
  | EvTranscribeRet _ res :: tr' => res :: adapter_returns tr'
  | _ :: tr' => adapter_returns tr'
  end.

(** The events sent to the analytics sink. *)
Fixpoint analytics_events (tr : Trace) : list AnalyticsEvent :=
  match tr with
  | [] => []
  | EvLogEvent e :: tr' => e :: analytics_events tr'
  | _ :: tr' => analytics_events tr'
  end.

(** The warnings sent to the notification sink. *)
Fixpoint notifications (tr : Trace) : list Notification :=
  match tr with
  | [] => []
  | EvNotify n :: tr' => n :: notifications tr'
  | _ :: tr' => notifications tr'
  end.

(** The readings of the clock. *)
Fixpoint clock_readings (tr : Trace) : list Z :=
  match tr with
  | [] => []
  | EvNow t :: tr' => t :: clock_readings tr'
  | _ :: tr' => clock_readings tr'
  end.

(** ** Running one program to its end

    [run w p h] runs [p] alone, from the history [h], and returns its value
    and the events it caused.  This is how a caller that awaits the mutation
    sees it. *)
Fixpoint run {A} (w : World) (p : Prog A) (h : Trace) : A * Trace :=
  match p with
  | Ret a => (a, [])
  | ReadSettings k =>
      let s := settings_value w h in
      emit [EvSettings s] (run w (k s) (h ++ [EvSettings s]))
  | DateNow k =>
      let t := date_now w h in
      emit [EvNow t] (run w (k t) (h ++ [EvNow t]))
  | ConsoleLog l k =>
      emit [EvConsole l] (run w k (h ++ [EvConsole l]))
  | LogEvent e k =>
      emit [EvLogEvent e]
        (run w (k (logEvent_outcome w h e)) (h ++ [EvLogEvent e]))
  | NotifyWarning n k =>
      emit [EvNotify n]
        (run w (k (notify_outcome w h n)) (h ++ [EvNotify n]))
  | UpdateRecording r k =>
      let res := updateRecording_outcome w (h ++ [EvUpdateCall r]) r in
      emit [EvUpdateCall r; EvUpdateRet r res]
        (run w (k res) (h ++ [EvUpdateCall r; EvUpdateRet r res]))
  | Transcribe c k =>
      let res := transcribe_outcome w (h ++ [EvTranscribeCall c]) c in
      emit [EvTranscribeCall c; EvTranscribeRet c res]
        (run w (k res) (h ++ [EvTranscribeCall c; EvTranscribeRet c res]))
  | Tick k => run w k h
  end.

(** ** Running several programs at once

    An async function runs until it has to wait; what is left of it is a
    thread. *)
Inductive Thread (A : Type) : Type :=
| Done (a : A)
| Ready (k : Prog A)
| AwaitUpdate (r : Recording) (k : Result unit DbError -> Prog A)
| AwaitTranscribe (c : AdapterCall) (k : TranscriptionResult -> Prog A).
Arguments Done {A} a.
Arguments Ready {A} k.
Arguments AwaitUpdate {A} r k.
Arguments AwaitTranscribe {A} c k.

(** Run a program up to its first suspension. *)
Fixpoint run_sync {A} (w : World) (p : Prog A) (h : Trace)
  : Thread A * Trace :=
  match p with
  | Ret a => (Done a, [])
  | ReadSettings k =>
      let s := settings_value w h in
      emit [EvSettings s] (run_sync w (k s) (h ++ [EvSettings s]))
  | DateNow k =>
      let t := date_now w h in
      emit [EvNow t] (run_sync w (k t) (h ++ [EvNow t]))
  | ConsoleLog l k =>
      emit [EvConsole l] (run_sync w k (h ++ [EvConsole l]))
  | LogEvent e k =>
      emit [EvLogEvent e]
        (run_sync w (k (logEvent_outcome w h e)) (h ++ [EvLogEvent e]))
  | NotifyWarning n k =>
      emit [EvNotify n]
        (run_sync w (k (notify_outcome w h n)) (h ++ [EvNotify n]))
  | UpdateRecording r k => (AwaitUpdate r k, [EvUpdateCall r])
  | Transcribe c k => (AwaitTranscribe c k, [EvTranscribeCall c])
  | Tick k => (Ready k, [])
  end.

(** Wake a thread up: the answer it waits for arrives, and it runs up to
    its next suspension. *)
Definition resume {A} (w : World) (t : Thread A) (h : Trace)
  : Thread A * Trace :=
  match t with
  | Done a => (Done a, [])
  | Ready k => run_sync w k h
  | AwaitUpdate r k =>
      let res := updateRecording_outcome w h r in
      emit [EvUpdateRet r res] (run_sync w (k res) (h ++ [EvUpdateRet r res]))
  | AwaitTranscribe c k =>
      let res := transcribe_outcome w h c in
      emit [EvTranscribeRet c res]
        (run_sync w (k res) (h ++ [EvTranscribeRet c res]))
  end.

(** Wake a thread up and let it run to its end without interruption. *)
Definition finish {A} (w : World) (t : Thread A) (h : Trace) : A * Trace :=
  match t with
  | Done a => (a, [])
  | Ready k => run w k h
  | AwaitUpdate r k =>
      let res := updateRecording_outcome w h r in
      emit [EvUpdateRet r res] (run w (k res) (h ++ [EvUpdateRet r res]))
  | AwaitTranscribe c k =>
      let res := transcribe_outcome w h c in
      emit [EvTranscribeRet c res] (run w (k res) (h ++ [EvTranscribeRet c res]))
  end.

(** [ps.map(async ...)]: every program is started in turn and runs up to
    its first suspension. *)
Fixpoint spawn_all {A} (w : World) (ps : list (Prog A)) (h : Trace)
  : list (Thread A) * Trace :=
  match ps with
  | [] => ([], [])
  | p :: ps' =>
      let t := run_sync w p h in
      let ts := spawn_all w ps' (h ++ t.2) in
      (t.1 :: ts.1, t.2 ++ ts.2)
  end.

(** The event loop: the schedule names, turn after turn, the thread that is
    woken up.  A name out of range is skipped. *)
Fixpoint drive {A} (w : World) (schedule : list nat) (pool : list (Thread A))
    (h : Trace) : list (Thread A) * Trace :=
  match schedule with
  | [] => (pool, [])
  | i :: schedule' =>
      match pool !! i with
      | Some t =>
          let t' := resume w t h in
          emit t'.2 (drive w schedule' (<[i := t'.1]> pool) (h ++ t'.2))
      | None => drive w schedule' pool h
      end
  end.

(** The join: the threads that are still suspended when the schedule is
    used up are finished one after the other. *)
Fixpoint join_all {A} (w : World) (pool : list (Thread A)) (h : Trace)
  : list A * Trace :=
  match pool with
  | [] => ([], [])
  | t :: pool' =>
      let a := finish w t h in
      let rest := join_all w pool' (h ++ a.2) in
      (a.1 :: rest.1, a.2 ++ rest.2)
  end.

(** [await Promise.all(ps)]: the values of the programs in the order of
    [ps], whatever the order in which they complete. *)
Definition promise_all {A} (w : World) (schedule : list nat)
    (ps : list (Prog A)) (h : Trace) : list A * Trace :=
  let started := spawn_all w ps h in
  let driven := drive w schedule started.1 (h ++ started.2) in
  let joined := join_all w driven.1 (h ++ started.2 ++ driven.2) in
  (joined.1, started.2 ++ driven.2 ++ joined.2).

(** Modelled from the spec: [partitionResults] belongs to the package
    wellcrafted and is not part of the sources.  The spec has the results,
    collected in input order, partitioned into a sequence of successes and a
    sequence of failures. *)
Record Partitioned (T E : Type) : Type := {
  oks : list (Result T E);
  errs : list (Result T E)
}.
Arguments oks {T E} _.
Arguments errs {T E} _.

Definition partitionResults {T E} (results : list (Result T E))
  : Partitioned T E :=
  {| oks := List.filter isOk results;
     errs := List.filter isErr results |}.

Definition BatchOutcome : Type := Partitioned string WhisperingError.

(** The [resultMutationFn] of [transcription.transcribeRecordings].  The
    schedule is the order in which the event loop wakes the items up. *)
Definition transcribeRecordings (w : World) (schedule : list nat)
    (recordings : list Recording) (h : Trace)
  : Result BatchOutcome WhisperingError * Trace :=
  let results := promise_all w schedule (map transcribeItem recordings) h in
  (Ok (partitionResults results.1), results.2).

(** ** The vocabulary of the statements *)

(** A provider is selected when the setting names one of the cases of the
    switch. *)
Definition knownService (service : string) : bool :=
  existsb (String.eqb service)
    ["OpenAI"; "Groq"; "speaches"; "ElevenLabs"; "Deepgram"; "whispercpp"].

(** The console line and the analytics event that close [transcribeBlob]. *)
Definition terminal_console (service : string) (duration : Z)
    (res : TranscriptionResult) : ConsoleLine :=
  match res with
  | Err error => console_failed service duration error
  | Ok data => console_completed service duration (String.length data)
  end.

Definition terminal_event (service : string) (duration : Z)
    (res : TranscriptionResult) : AnalyticsEvent :=
  match res with
  | Err error => transcription_failed service (title error) (description error)
  | Ok _ => transcription_completed service duration
  end.

(** The events of one best-effort write: the call, its answer, and the
    warning when the answer is an error. *)
Definition warning_events (o : Result unit DbError)
    (warning : DbError -> Notification) : Trace :=
  match o with
  | Err e => [EvNotify (warning e)]
  | Ok _ => []
  end.

Definition write_events (r : Recording) (o : Result unit DbError)
    (warning : DbError -> Notification) : Trace :=
  EvUpdateCall r :: EvUpdateRet r o :: warning_events o warning.

(** The snapshot written once the transcription is over, and the warning
    that goes with it. *)
Definition final_write (recording : Recording) (res : TranscriptionResult)
  : Recording :=
  match res with
  | Ok text => with_text_status recording text DONE
  | Err _ => with_status recording FAILED
  end.

Definition final_warning (res : TranscriptionResult)
  : DbError -> Notification :=
  match res with
  | Ok _ => warnDone
  | Err _ => warnFailed
  end.

(** A stretch of trace without a status write, a warning or an adapter
    call. *)
Definition quiet (t : Trace) : Prop :=
  status_writes t = [] /\ status_write_outcomes t = []
  /\ notifications t = []
  /\ adapter_calls t = [] /\ adapter_returns t = [].

(** A program is blind to the analytics sink when the outcome of every
    emission is dropped: what follows [logEvent] is the same whatever the
    sink answered. *)
Fixpoint sink_blind {A} (p : Prog A) : Prop :=
  match p with
  | Ret _ => True
  | ReadSettings k => forall s, sink_blind (k s)
  | DateNow k => forall t, sink_blind (k t)
  | ConsoleLog _ k => sink_blind k
  | LogEvent _ k => (forall x y, k x = k y) /\ (forall x, sink_blind (k x))
  | NotifyWarning _ k => forall x, sink_blind (k x)
  | UpdateRecording _ k => forall x, sink_blind (k x)
  | Transcribe _ k => forall x, sink_blind (k x)
  | Tick k => sink_blind k
  end.

(** The world [w] with another analytics sink. *)
Definition with_logEvent (w : World)
    (sink : Trace -> AnalyticsEvent -> Result unit SinkError) : World :=
  {| settings_value := settings_value w;
     date_now := date_now w;
     logEvent_outcome := sink;
     notify_outcome := notify_outcome w;
     updateRecording_outcome := updateRecording_outcome w;
     transcribe_outcome := transcribe_outcome w |}.

(** A program that never writes to the status store. *)
Fixpoint no_update {A} (p : Prog A) : Prop :=
  match p with
  | Ret _ => True
  | ReadSettings k => forall s, no_update (k s)
  | DateNow k => forall t, no_update (k t)
  | ConsoleLog _ k => no_update k
  | LogEvent _ k => forall x, no_update (k x)
  | NotifyWarning _ k => forall x, no_update (k x)
  | UpdateRecording _ _ => False
  | Transcribe _ k => forall x, no_update (k x)
  | Tick k => no_update k
  end.

Definition thread_no_update {A} (t : Thread A) : Prop :=
  match t with
  | Done _ => True
  | Ready k => no_update k
  | AwaitUpdate _ _ => False
  | AwaitTranscribe _ k => forall x, no_update (k x)
  end.

(** [always w Q p]: whatever the collaborators of the world [w] answer, and
    whenever they answer, the value of [p] satisfies [Q]. *)
Fixpoint always {A} (w : World) (Q : A -> Prop) (p : Prog A) : Prop :=
  match p with
  | Ret a => Q a
  | ReadSettings k => forall h, always w Q (k (settings_value w h))
  | DateNow k => forall t, always w Q (k t)
  | ConsoleLog _ k => always w Q k
  | LogEvent _ k => forall x, always w Q (k x)
  | NotifyWarning _ k => forall x, always w Q (k x)
  | UpdateRecording _ k => forall x, always w Q (k x)
  | Transcribe c k => forall h, always w Q (k (transcribe_outcome w h c))
  | Tick k => always w Q k
  end.

Definition thread_always {A} (w : World) (Q : A -> Prop) (t : Thread A)
  : Prop :=
  match t with
  | Done a => Q a
  | Ready k => always w Q k
  | AwaitUpdate _ k => forall x, always w Q (k x)
  | AwaitTranscribe c k => forall h, always w Q (k (transcribe_outcome w h c))
  end.

(** The result of one item of a batch: the failure "recording blob not
    found" when the recording has no blob; otherwise the failure "no
    transcription service selected", at a moment when the settings select no
    provider, or, at a moment when they select one, the answer of an adapter
    called on the blob of the recording. *)
Definition item_result (w : World) (recording : Recording)
    (res : TranscriptionResult) : Prop :=
  match blob recording with
  | None => res = blobNotFound
  | Some b =>
      (res = noServiceSelected
       /\ exists h,
            knownService (selectedTranscriptionService (settings_value w h))
            = false)
      \/ (exists h h' c,
            knownService (selectedTranscriptionService (settings_value w h))
            = true
            /\ call_blob c = b /\ res = transcribe_outcome w h' c)
  end.

(** ** Stub collaborators

    Worlds for the examples: constant settings, a clock that advances by
    fifty milliseconds per event, an adapter that answers by the size of the
    blob, and a status store that works or not. *)

Definition stub_settings (service endpoint : string) : Settings :=
  {| selectedTranscriptionService := service;
     outputLanguage := "auto"; prompt := ""; temperature := "0.0";
     apiKeys_openai := "sk-openai"; apiKeys_groq := "gsk";
     apiKeys_elevenlabs := "el"; apiKeys_deepgram := "dg";
     apiEndpoints_openai := endpoint; apiEndpoints_groq := endpoint;
     openai_model := "whisper-1"; groq_model := "whisper-large-v3";
     elevenlabs_model := "scribe_v1"; deepgram_model := "nova-3";
     speaches_modelId := "faster-whisper"; speaches_baseUrl := "http://localhost:8000";
     whispercpp_modelPath := "/models/ggml-base.bin"; whispercpp_useGpu := false |}.

Definition stub_world (service : string)
    (answer : Blob -> TranscriptionResult) (storeFails sinkFails : bool)
  : World :=
  {| settings_value := fun _ => stub_settings service "";
     date_now := fun h => 50 * Z.of_nat (length h);
     logEvent_outcome := fun _ _ =>
       if sinkFails then Err {| sink_message := "offline" |} else Ok tt;
     notify_outcome := fun _ _ => Ok tt;
     updateRecording_outcome := fun _ _ =>
       if storeFails then Err {| db_message := "quota exceeded" |} else Ok tt;
     transcribe_outcome := fun _ c => answer (call_blob c) |}.

Definition wav (n : nat) : Blob := {| blob_bytes := repeat Byte.x00 n |}.

Definition rateLimited : WhisperingError :=
  {| kind := "WhisperingError"; title := "Rate limit reached";
     description := "Too many requests, try again later." |}.

(** Blobs of an odd size are transcribed, the others are refused. *)
Definition answer_by_size (b : Blob) : TranscriptionResult :=
  if Z.odd (blob_size b) then Ok "hello world" else Err rateLimited.

Definition recording_r1 : Recording :=
  {| rec_id := "r1"; blob := Some (wav 1);
     transcriptionStatus := UNTRANSCRIBED; transcribedText := None |}.

Definition recording_r2 : Recording :=
  {| rec_id := "r2"; blob := Some (wav 2);
     transcriptionStatus := UNTRANSCRIBED; transcribedText := None |}.

Definition recording_r3 : Recording :=
  {| rec_id := "r3"; blob := Some (wav 3);
     transcriptionStatus := DONE; transcribedText := Some "an earlier text" |}.

Definition recording_noblob : Recording :=
  {| rec_id := "r0"; blob := None;
     transcriptionStatus := UNTRANSCRIBED; transcribedText := None |}.

(** A recording with the audio of [recording_r1] under another identifier. *)
Definition recording_r4 : Recording :=
  {| rec_id := "r4"; blob := Some (wav 1);
     transcriptionStatus := UNTRANSCRIBED; transcribedText := None |}.

(** ** More vocabulary: what the programs never do *)

(** The errors of the failed writes, oldest first. *)
Fixpoint errors_of (outcomes : list (Result unit DbError)) : list DbError :=
  match outcomes with
  | [] => []
  | Err e :: outcomes' => e :: errors_of outcomes'
  | Ok _ :: outcomes' => errors_of outcomes'
  end.

(** A program is blind to the notification sink when the outcome of every
    warning is dropped. *)
Fixpoint notify_blind {A} (p : Prog A) : Prop :=
  match p with
  | Ret _ => True
  | ReadSettings k => forall s, notify_blind (k s)
  | DateNow k => forall t, notify_blind (k t)
  | ConsoleLog _ k => notify_blind k
  | LogEvent _ k => forall x, notify_blind (k x)
  | NotifyWarning _ k => (forall x y, k x = k y) /\ (forall x, notify_blind (k x))
  | UpdateRecording _ k => forall x, notify_blind (k x)
  | Transcribe _ k => forall x, notify_blind (k x)
  | Tick k => notify_blind k
  end.

(** The world [w] with another notification sink. *)
Definition with_notify (w : World)
    (sink : Trace -> Notification -> Result unit SinkError) : World :=
  {| settings_value := settings_value w;
     date_now := date_now w;
     logEvent_outcome := logEvent_outcome w;
     notify_outcome := sink;
     updateRecording_outcome := updateRecording_outcome w;
     transcribe_outcome := transcribe_outcome w |}.

(** What is left of a program that is blind to the analytics sink. *)
Definition thread_sink_blind {A} (t : Thread A) : Prop :=
  match t with
  | Done _ => True
  | Ready k => sink_blind k
  | AwaitUpdate _ k => forall x, sink_blind (k x)
  | AwaitTranscribe _ k => forall x, sink_blind (k x)
  end.

(** [emits_only E p]: every event that [p] can cause satisfies [E]. *)
Fixpoint emits_only {A} (E : Event -> Prop) (p : Prog A) : Prop :=
  match p with
  | Ret _ => True
  | ReadSettings k => forall s, E (EvSettings s) /\ emits_only E (k s)
  | DateNow k => forall t, E (EvNow t) /\ emits_only E (k t)
  | ConsoleLog l k => E (EvConsole l) /\ emits_only E k
  | LogEvent e k => E (EvLogEvent e) /\ forall x, emits_only E (k x)
  | NotifyWarning n k => E (EvNotify n) /\ forall x, emits_only E (k x)
  | UpdateRecording r k =>
      E (EvUpdateCall r)
      /\ forall x, E (EvUpdateRet r x) /\ emits_only E (k x)
  | Transcribe c k =>
      E (EvTranscribeCall c)
      /\ forall x, E (EvTranscribeRet c x) /\ emits_only E (k x)
  | Tick k => emits_only E k
  end.

Definition thread_emits_only {A} (E : Event -> Prop) (t : Thread A) : Prop :=
  match t with
  | Done _ => True
  | Ready k => emits_only E k
  | AwaitUpdate r k => forall x, E (EvUpdateRet r x) /\ emits_only E (k x)
  | AwaitTranscribe c k =>
      forall x, E (EvTranscribeRet c x) /\ emits_only E (k x)
  end.

(** The events a batch on [recordings] may cause: no status write, no
    warning, and adapter calls on the audio of the recordings only. *)
Definition batch_event (recordings : list Recording) (ev : Event) : Prop :=
  match ev with
  | EvNotify _ | EvUpdateCall _ | EvUpdateRet _ _ => False
  | EvTranscribeCall c | EvTranscribeRet c _ =>
      exists r, In r recordings /\ blob r = Some (call_blob c)
  | _ => True
  end.

(** A program that never calls an adapter. *)
Fixpoint no_transcribe {A} (p : Prog A) : Prop :=
  match p with
  | Ret _ => True
  | ReadSettings k => forall s, no_transcribe (k s)
  | DateNow k => forall t, no_transcribe (k t)
  | ConsoleLog _ k => no_transcribe k
  | LogEvent _ k => forall x, no_transcribe (k x)
  | NotifyWarning _ k => forall x, no_transcribe (k x)
  | UpdateRecording _ k => forall x, no_transcribe (k x)
  | Transcribe _ _ => False
  | Tick k => no_transcribe k
  end.

Definition thread_no_transcribe {A} (t : Thread A) : Prop :=
  match t with
  | Done _ => True
  | Ready k => no_transcribe k
  | AwaitUpdate _ k => forall x, no_transcribe (k x)
  | AwaitTranscribe _ k => forall x, no_transcribe (k x)
  end.

(** A program that calls adapters only before its first suspension: what
    is left of it after a suspension never calls one. *)
Fixpoint calls_first {A} (p : Prog A) : Prop :=
  match p with
  | Ret _ => True
  | ReadSettings k => forall s, calls_first (k s)
  | DateNow k => forall t, calls_first (k t)
  | ConsoleLog _ k => calls_first k
  | LogEvent _ k => forall x, calls_first (k x)
  | NotifyWarning _ k => forall x, calls_first (k x)
  | UpdateRecording _ k => forall x, no_transcribe (k x)
  | Transcribe _ k => forall x, no_transcribe (k x)
  | Tick k => no_transcribe k
  end.

(** The analytics events of a trace that satisfy [P], counted. *)
Definition count_events (P : AnalyticsEvent -> bool) (tr : Trace) : nat :=
  length (List.filter P (analytics_events tr)).

Definition is_requested (e : AnalyticsEvent) : bool :=
  match e with transcription_requested _ => true | _ => false end.

Definition is_terminal (e : AnalyticsEvent) : bool :=
  match e with transcription_requested _ => false | _ => true end.

(** [logs P n p]: every run of [p] sends exactly [n] analytics events that
    satisfy [P]. *)
Fixpoint logs {A} (P : AnalyticsEvent -> bool) (n : nat) (p : Prog A)
  : Prop :=
  match p with
  | Ret _ => n = 0%nat
  | ReadSettings k => forall s, logs P n (k s)
  | DateNow k => forall t, logs P n (k t)
  | ConsoleLog _ k => logs P n k
  | LogEvent e k =>
      if P e then exists n', n = S n' /\ forall x, logs P n' (k x)
      else forall x, logs P n (k x)
  | NotifyWarning _ k => forall x, logs P n (k x)
  | UpdateRecording _ k => forall x, logs P n (k x)
  | Transcribe _ k => forall x, logs P n (k x)
  | Tick k => logs P n k
  end.

Definition thread_logs {A} (P : AnalyticsEvent -> bool) (n : nat)
    (t : Thread A) : Prop :=
  match t with
  | Done _ => n = 0%nat
  | Ready k => logs P n k
  | AwaitUpdate _ k => forall x, logs P n (k x)
  | AwaitTranscribe _ k => forall x, logs P n (k x)
  end.

(** One for a recording that has a blob, zero otherwise. *)
Definition has_blob (recording : Recording) : nat :=
  match blob recording with Some _ => 1%nat | None => 0%nat end.

(** ** The development script (listed in the sources after
    [transcription.ts]): its arguments

    The script is given [process.argv.slice(2)], here [args], and the
    platform name.  Console output is not part of the model; the functions
    below are the values the script computes. *)

(** [l.indexOf(x)], [None] for -1. *)
Fixpoint indexOf (x : string) (l : list string) : option nat :=
  match l with
  | [] => None
  | a :: l' => if String.eqb a x then Some 0%nat else S <$> indexOf x l'
  end.

(** [l.includes(x)] *)
Definition includes (x : string) (l : list string) : bool :=
  existsb (String.eqb x) l.

(** [l.filter((x, index) => f x index)] *)
Fixpoint filter_from {A} (f : A -> nat -> bool) (index : nat) (l : list A)
  : list A :=
  match l with
  | [] => []
  | a :: l' =>
      if f a index then a :: filter_from f (S index) l'
      else filter_from f (S index) l'
  end.

Definition filter_indexed {A} (f : A -> nat -> bool) (l : list A) : list A :=
  filter_from f 0 l.

(** [s.split(sep)] for a separator of one character. *)
Fixpoint split_on (sep : Ascii.ascii) (s : string) : list string :=
  match s with
  | EmptyString => [EmptyString]
  | String c s' =>
      if Ascii.eqb c sep then EmptyString :: split_on sep s'
      else match split_on sep s' with
           | [] => [String c EmptyString]
           | x :: xs => String c x :: xs
           end
  end.

(** The character [' ']. *)
Definition space : Ascii.ascii := Ascii.ascii_of_nat 32.

(** An entry of the table [gpuConfig]. *)
Record GpuInfo : Type := {
  gpu_name : string;
  gpu_platform : string;
  gpu_config : string
}.

(** [gpuConfig[key]], for the four keys of the object literal.  A member
    that the literal inherits from [Object.prototype] ("constructor",
    "toString", ...) is no [GpuInfo]: it has no [config] and its [name] is
    none of the four, so that it behaves as an absent key in everything
    modelled here. *)
Definition gpuConfig (key : string) : option GpuInfo :=
  if String.eqb key "metal" then
    Some {| gpu_name := "Metal GPU"; gpu_platform := "macOS";
            gpu_config := "-c src-tauri/tauri.metal.conf.json" |}
  else if String.eqb key "cuda" then
    Some {| gpu_name := "CUDA GPU"; gpu_platform := "Windows/Linux";
            gpu_config := "" |}
  else if String.eqb key "vulkan" then
    Some {| gpu_name := "Vulkan GPU"; gpu_platform := "All platforms";
            gpu_config := "" |}
  else if String.eqb key "hipblas" then
    Some {| gpu_name := "ROCm GPU"; gpu_platform := "Linux";
            gpu_config := "" |}
  else None.

(** [featuresIndex !== -1 ? args[featuresIndex + 1] : null]; [None] is
    [null] or [undefined]. *)
Definition gpuFeature (args : list string) : option string :=
  match indexOf "--features" args with
  | Some featuresIndex => args !! (featuresIndex + 1)%nat
  | None => None
  end.

(** [gpuFeature ? gpuConfig[gpuFeature] : null] *)
Definition gpu (args : list string) : option GpuInfo :=
  match gpuFeature args with
  | Some feature => if truthy feature then gpuConfig feature else None
  | None => None
  end.

(** The callback of [args.filter]: [arg] is kept unless it is [--features]
    or [args[index - 1]] is. *)
Definition keepArg (args : list string) (arg : string) (index : nat) : bool :=
  if String.eqb arg "--features" then false
  else if match index with
          | O => false
          | S before =>
              match args !! before with
              | Some previous => String.eqb previous "--features"
              | None => false
              end
          end
       then false
       else true.

(** The arguments of the script without [--features] and without what
    follows a [--features]. *)
Definition filteredArgs (args : list string) : list string :=
  filter_indexed (keepArg args) args.

(** The arguments handed to [bun tauri dev]. *)
Definition tauriArgs (args : list string) : list string :=
  (match gpu args with
   | Some g =>
       if truthy (gpu_config g)
       then List.filter truthy (split_on space (gpu_config g))
       else []
   | None => []
   end)
  ++ (match gpuFeature args with
      | Some feature => if truthy feature then ["--features"; feature] else []
      | None => []
      end)
  ++ filteredArgs args.

(** The value [checkGpuConfig] returns, on the platform name and the
    arguments of the script. *)
Definition checkGpuConfig (platform : string) (args : list string) : bool :=
  let isWindows := String.eqb platform "win32" in
  let isMacOS := String.eqb platform "darwin" in
  match gpu args with
  | None => true
  | Some g =>
      if String.eqb (gpu_name g) "Metal GPU" && negb isMacOS then false
      else if String.eqb (gpu_name g) "ROCm GPU" && (isWindows || isMacOS)
      then false
      else if String.eqb (gpu_name g) "Metal GPU" then
        if negb (includes "--release" args) then false else true
      else true
  end.

(** What [filteredArgs] keeps of a list, given whether the element before
    it is [--features]. *)
Fixpoint skip_features (after_flag : bool) (l : list string) : list string :=
  match l with
  | [] => []
  | a :: l' =>
      let is_flag := String.eqb a "--features" in
      (if is_flag || after_flag then [] else [a]) ++ skip_features is_flag l'
  end.

(** ** The clean script ([src/unnamed/part_000])

    The script removes build artifacts at one of three levels.  It talks to
    the shell ([cargo clean]), to the file system ([existsSync], [rmSync])
    and to the process ([homedir], [process.exit]).  A path is the list of
    the segments given to [join]. *)

Definition Path : Type := list string.

(** The lines the script prints (colours left out). *)
Inductive CleanLine : Type :=
| line_cleaning_build_cache
| line_cargo_clean_completed
| line_cargo_clean_failed
| line_removed_target
| line_target_not_found
| line_build_cache_cleared
| line_deep_cleaning
| line_removed (p : Path)
| line_failed_to_remove (p : Path) (message : string)
| line_not_found (p : Path)
| line_deep_done
| line_full_cleaning
| line_cargo_sources_not_found
| line_full_done
| line_next_build_downloads
| line_error_during_cleaning (message : string).

(** A script is a tree of calls.  [SCargoClean] and [SRmSync] either return
    or throw an error, given here by its message; [SExit] is
    [process.exit(code)], after which nothing runs. *)
Inductive Script (A : Type) : Type :=
| SRet (a : A)
| SPrint (l : CleanLine) (k : Script A)
| SCargoClean (k : Result unit string -> Script A)
| SExistsSync (p : Path) (k : bool -> Script A)
| SRmSync (p : Path) (k : Result unit string -> Script A)
| SHomedir (k : Path -> Script A)
| SExit (code : Z).
Arguments SRet {A} a.
Arguments SPrint {A} l k.
Arguments SCargoClean {A} k.
Arguments SExistsSync {A} p k.
Arguments SRmSync {A} p k.
Arguments SHomedir {A} k.
Arguments SExit {A} code.

Fixpoint sbind {A B} (m : Script A) (f : A -> Script B) : Script B :=
  match m with
  | SRet a => f a
  | SPrint l k => SPrint l (sbind k f)
  | SCargoClean k => SCargoClean (fun x => sbind (k x) f)
  | SExistsSync p k => SExistsSync p (fun x => sbind (k x) f)
  | SRmSync p k => SRmSync p (fun x => sbind (k x) f)
  | SHomedir k => SHomedir (fun x => sbind (k x) f)
  | SExit code => SExit code
  end.

Notation "'do*' x ':=' m 'in' k" := (sbind m (fun x => k))
  (at level 10, x pattern, m at level 100, k at level 200).

Definition print (l : CleanLine) : Script unit := SPrint l (SRet tt).
Definition cargoClean : Script (Result unit string) := SCargoClean SRet.
Definition existsSync (p : Path) : Script bool := SExistsSync p SRet.
Definition rmSync (p : Path) : Script (Result unit string) := SRmSync p SRet.
Definition homedir : Script Path := SHomedir SRet.

(** [join('src-tauri', 'target')] *)
Definition targetPath : Path := ["src-tauri"; "target"].

(** [cleanBasic()]; [Err message] is the error it throws. *)
Definition cleanBasic : Script (Result unit string) :=
  do* _ := print line_cleaning_build_cache in
  do* cleaned := cargoClean in
  do* _ := match cleaned with
           | Ok _ => print line_cargo_clean_completed
           | Err _ => print line_cargo_clean_failed
           end in
  do* found := existsSync targetPath in
  if found then
    do* removed := rmSync targetPath in
    match removed with
    | Err message => SRet (Err message)
    | Ok _ =>
        do* _ := print line_removed_target in
        do* _ := print line_build_cache_cleared in
        SRet (Ok tt)
    end
  else
    do* _ := print line_target_not_found in
    do* _ := print line_build_cache_cleared in
    SRet (Ok tt).

(** The body of [for (const cachePath of cargoCachePaths)]. *)
Definition removeCachePath (cachePath : Path) : Script unit :=
  do* found := existsSync cachePath in
  if found then
    do* removed := rmSync cachePath in
    match removed with
    | Ok _ => print (line_removed cachePath)
    | Err message => print (line_failed_to_remove cachePath message)
    end
  else print (line_not_found cachePath).

Fixpoint forEach {X} (body : X -> Script unit) (xs : list X) : Script unit :=
  match xs with
  | [] => SRet tt
  | x :: xs' => do* _ := body x in forEach body xs'
  end.

Definition cargoCachePaths (home : Path) : list Path :=
  [home ++ [".cargo"; "registry"; "cache"];
   home ++ [".cargo"; ".package-cache"]].

Definition cargoSrcPath (home : Path) : Path :=
  home ++ [".cargo"; "registry"; "src"].

(** [cleanDeep()] *)
Definition cleanDeep : Script (Result unit string) :=
  do* basic := cleanBasic in
  match basic with
  | Err message => SRet (Err message)
  | Ok _ =>
      do* _ := print line_deep_cleaning in
      do* home := homedir in
      do* _ := forEach removeCachePath (cargoCachePaths home) in
      do* _ := print line_deep_done in
      SRet (Ok tt)
  end.

(** [cleanFull()] *)
Definition cleanFull : Script (Result unit string) :=
  do* deep := cleanDeep in
  match deep with
  | Err message => SRet (Err message)
  | Ok _ =>
      do* _ := print line_full_cleaning in
      do* home := homedir in
      do* found := existsSync (cargoSrcPath home) in
      do* _ :=
        (if found then
           do* removed := rmSync (cargoSrcPath home) in
           match removed with
           | Ok _ => print (line_removed (cargoSrcPath home))
           | Err message =>
               print (line_failed_to_remove (cargoSrcPath home) message)
           end
         else print line_cargo_sources_not_found) in
      do* _ := print line_full_done in
      do* _ := print line_next_build_downloads in
      SRet (Ok tt)
  end.

(** [args[0] || 'basic'] *)
Definition cleanLevel (args : list string) : string :=
  match args with
  | level :: _ => if truthy level then level else "basic"
  | [] => "basic"
  end.

(** [main()], on [process.argv.slice(2)]. *)
Definition cleanMain (args : list string) : Script unit :=
  do* outcome :=
    (if String.eqb (cleanLevel args) "deep" then cleanDeep
     else if String.eqb (cleanLevel args) "full" then cleanFull
     else cleanBasic) in
  match outcome with
  | Ok _ => SRet tt
  | Err message =>
      do* _ := print (line_error_during_cleaning message) in
      SExit 1
  end.

(** What an observer of the script sees. *)
Inductive ScriptEvent : Type :=
| EvPrint (l : CleanLine)
| EvCargoClean (res : Result unit string)
| EvExistsSync (p : Path) (found : bool)
| EvRmSync (p : Path) (res : Result unit string)
| EvHomedir (home : Path)
| EvExit (code : Z).

(** The machine the script runs on; each answer may depend on what
    happened before. *)
Record Machine : Type := {
  cargo_clean_outcome : list ScriptEvent -> Result unit string;
  exists_answer : list ScriptEvent -> Path -> bool;
  rm_outcome : list ScriptEvent -> Path -> Result unit string;
  homedir_value : list ScriptEvent -> Path
}.

Definition semit {A} (evs : list ScriptEvent) (x : A * list ScriptEvent)
  : A * list ScriptEvent :=
  (x.1, evs ++ x.2).

(** Run a script; the value is [None] when the script has exited. *)
Fixpoint run_script {A} (m : Machine) (s : Script A) (h : list ScriptEvent)
  : option A * list ScriptEvent :=
  match s with
  | SRet a => (Some a, [])
  | SPrint l k => semit [EvPrint l] (run_script m k (h ++ [EvPrint l]))
  | SCargoClean k =>
      let res := cargo_clean_outcome m h in
      semit [EvCargoClean res] (run_script m (k res) (h ++ [EvCargoClean res]))
  | SExistsSync p k =>
      let found := exists_answer m h p in
      semit [EvExistsSync p found]
        (run_script m (k found) (h ++ [EvExistsSync p found]))
  | SRmSync p k =>
      let res := rm_outcome m h p in
      semit [EvRmSync p res] (run_script m (k res) (h ++ [EvRmSync p res]))
  | SHomedir k =>
      let home := homedir_value m h in
      semit [EvHomedir home] (run_script m (k home) (h ++ [EvHomedir home]))
  | SExit code => (None, [EvExit code])
  end.

(** The codes the script exited with (at most one). *)
Fixpoint exit_codes (tr : list ScriptEvent) : list Z :=
  match tr with
  | [] => []
  | EvExit code :: tr' => code :: exit_codes tr'
  | _ :: tr' => exit_codes tr'
  end.

(** The paths the script tried to remove, oldest first. *)
Fixpoint removals (tr : list ScriptEvent) : list Path :=
  match tr with
  | [] => []
  | EvRmSync p _ :: tr' => p :: removals tr'
  | _ :: tr' => removals tr'
  end.

(** The home directories the script was told. *)
Fixpoint homes (tr : list ScriptEvent) : list Path :=
  match tr with
  | [] => []
  | EvHomedir home :: tr' => home :: homes tr'
  | _ :: tr' => homes tr'
  end.

(** Every removal in the trace comes right after a check that found the
    path; [previous] is the event before the trace. *)
Fixpoint checked_from (previous : option ScriptEvent)
    (tr : list ScriptEvent) : Prop :=
  match tr with
  | [] => True
  | ev :: tr' =>
      match ev with
      | EvRmSync p _ => previous = Some (EvExistsSync p true)
      | _ => True
      end
      /\ checked_from (Some ev) tr'
  end.

Definition removals_checked (tr : list ScriptEvent) : Prop :=
  checked_from None tr.

(** A run of one of the three cleaning functions: it never exits, it
    checks before it removes, and either it returns after removing nothing
    but paths of [allowed], in that order, each at most once, or it throws
    the error of the removal of the target directory, its last event. *)
Definition clean_run (allowed : list Path)
    (out : option (Result unit string) * list ScriptEvent) : Prop :=
  removals_checked out.2 /\ exit_codes out.2 = []
  /\ sublist (removals out.2) allowed
  /\ ((out.1 = Some (Ok tt)
       /\ ~ exists message, In (EvRmSync targetPath (Err message)) out.2)
      \/ (exists before message,
            out.1 = Some (Err message)
            /\ out.2 = before ++ [EvRmSync targetPath (Err message)]
            /\ removals before = [])).

(** A machine for the examples: everything exists, the removal of the
    paths in [locked] fails. *)
Definition stub_machine (locked : list Path) : Machine :=
  {| cargo_clean_outcome := fun _ => Ok tt;
     exists_answer := fun _ _ => true;
     rm_outcome := fun _ p =>
       if existsb (fun q => bool_decide (p = q)) locked
       then Err "EPERM: operation not permitted" else Ok tt;
     homedir_value := fun _ => ["home"; "dev"] |}.

(** ** The interpreter and the monad *)

Lemma emit_nil {A} (x : A * Trace) : emit [] x = x.
Proof. destruct x; reflexivity. Qed.

Lemma emit_emit {A} (e1 e2 : Trace) (x : A * Trace) :
  emit e1 (emit e2 x) = emit (e1 ++ e2) x.
Proof. unfold emit; simpl. by rewrite app_assoc. Qed.

Lemma run_bind {A B} (w : World) (m : Prog A) (f : A -> Prog B) (h : Trace) :
  run w (bind m f) h
  = emit (run w m h).2 (run w (f (run w m h).1) (h ++ (run w m h).2)).
Proof.
  revert h; induction m as [a|k IH|k IH|l k IH|e k IH|n k IH|r k IH|c k IH|k IH];
    intros h; simpl.
  - by rewrite app_nil_r, emit_nil.
  - by rewrite IH, emit_emit, <- app_assoc.
  - by rewrite IH, emit_emit, <- app_assoc.
  - by rewrite IH, emit_emit, <- app_assoc.
  - by rewrite IH, emit_emit, <- app_assoc.
  - by rewrite IH, emit_emit, <- app_assoc.
  - by rewrite IH, emit_emit, <- app_assoc.
  - by rewrite IH, emit_emit, <- app_assoc.
  - apply IH.
Qed.

Lemma run_await {A} (w : World) (m : Prog A) (h : Trace) :
  run w (await m) h = run w m h.
Proof.
  unfold await. rewrite run_bind. simpl.
  destruct (run w m h) as [a t]; unfold emit; simpl. by rewrite app_nil_r.
Qed.

(** ** Symbolic execution of the source functions *)

Lemma selectAndTranscribe_cases (s : Settings) (b : Blob) :
  (knownService (selectedTranscriptionService s) = true
   /\ exists c, call_blob c = b
        /\ selectAndTranscribe s b = await (Transcribe c Ret))
  \/ (knownService (selectedTranscriptionService s) = false
      /\ selectAndTranscribe s b = Ret noServiceSelected).
Proof.
  unfold selectAndTranscribe, knownService, transcribe; simpl.
  repeat match goal with
  | |- context [String.eqb ?x ?y] => destruct (String.eqb x y)
  | |- context [truthy ?x] => destruct (truthy x)
  end; simpl;
  first [ right; split; reflexivity
        | left; split; [reflexivity | eexists; split; [|reflexivity]; reflexivity] ].
Qed.

(** The two events of an adapter call that is awaited. *)
Lemma run_adapter_call (w : World) (c : AdapterCall) (h : Trace) :
  run w (await (Transcribe c Ret)) h
  = (transcribe_outcome w (h ++ [EvTranscribeCall c]) c,
     [EvTranscribeCall c;
      EvTranscribeRet c (transcribe_outcome w (h ++ [EvTranscribeCall c]) c)]).
Proof. reflexivity. Qed.

(** [transcribeBlob] is: four events, the switch, three events. *)
Lemma run_transcribeBlob (w : World) (b : Blob) (h : Trace) :
  let s := settings_value w h in
  let service := selectedTranscriptionService s in
  let t0 := date_now w (h ++ [EvSettings s]) in
  let pre := [EvSettings s; EvNow t0;
              EvConsole (console_starting service (blob_size b) true);
              EvLogEvent (transcription_requested service)] in
  let sel := run w (selectAndTranscribe s b) (h ++ pre) in
  let t1 := date_now w (h ++ pre ++ sel.2) in
  run w (transcribeBlob b) h
  = (sel.1,
     pre ++ sel.2 ++
     [EvNow t1;
      EvConsole (terminal_console service (t1 - t0) sel.1);
      EvLogEvent (terminal_event service (t1 - t0) sel.1)]).
Proof.
  intros s service t0 pre sel t1.
  unfold transcribeBlob. simpl.
  rewrite run_bind, run_await.
  rewrite <- !app_assoc; simpl.
  fold s service t0 pre. fold sel.
  destruct sel as [res evs] eqn:Hsel; simpl.
  subst t1; simpl.
  destruct res; simpl; unfold emit; simpl;
    rewrite <- ?app_assoc; simpl; reflexivity.
Qed.

Lemma run_best_effort_write {A} (w : World) (x : Recording)
    (warning : DbError -> Notification) (rest : Prog A) (h : Trace) :
  let o := updateRecording_outcome w (h ++ [EvUpdateCall x]) x in
  run w (let* res := await (updateRecording x) in
         let* _ := warnOnError res warning in rest) h
  = emit (write_events x o warning)
      (run w rest (h ++ write_events x o warning)).
Proof.
  intros o. rewrite run_bind, run_await. simpl. fold o.
  rewrite run_bind. unfold write_events, warnOnError.
  destruct o as [[]|e]; simpl; rewrite ?emit_emit, <- ?app_assoc; simpl;
    rewrite ?app_nil_r; reflexivity.
Qed.

(** [transcribeRecording] on a recording that has a blob is: the write of
    TRANSCRIBING, [transcribeBlob], the write of DONE or FAILED. *)
Lemma run_transcribeRecording (w : World) (r : Recording) (b : Blob)
    (h : Trace) :
  blob r = Some b ->
  let o1 := updateRecording_outcome w
              (h ++ [EvUpdateCall (with_status r TRANSCRIBING)])
              (with_status r TRANSCRIBING) in
  let u1 := write_events (with_status r TRANSCRIBING) o1 warnTranscribing in
  let tb := run w (transcribeBlob b) (h ++ u1) in
  let x := final_write r tb.1 in
  let o2 := updateRecording_outcome w
              (h ++ u1 ++ tb.2 ++ [EvUpdateCall x]) x in
  run w (transcribeRecording r) h
  = (tb.1, u1 ++ tb.2 ++ write_events x o2 (final_warning tb.1)).
Proof.
  intros Hb o1 u1 tb x o2. unfold transcribeRecording. rewrite Hb.
  rewrite run_best_effort_write. fold o1 u1.
  rewrite run_bind, run_await. fold tb.
  subst x o2. destruct tb as [res evs]. cbn [fst snd].
  destruct res as [text|err];
    rewrite run_best_effort_write; unfold emit; simpl;
    rewrite <- ?app_assoc; simpl; rewrite ?app_nil_r; reflexivity.
Qed.

(** ** Reading a trace *)

Lemma status_writes_app (t1 t2 : Trace) :
  status_writes (t1 ++ t2) = status_writes t1 ++ status_writes t2.
Proof. induction t1 as [|[] t1 IH]; simpl; congruence. Qed.

Lemma status_write_outcomes_app (t1 t2 : Trace) :
  status_write_outcomes (t1 ++ t2)
  = status_write_outcomes t1 ++ status_write_outcomes t2.
Proof. induction t1 as [|[] t1 IH]; simpl; congruence. Qed.

Lemma adapter_calls_app (t1 t2 : Trace) :
  adapter_calls (t1 ++ t2) = adapter_calls t1 ++ adapter_calls t2.
Proof. induction t1 as [|[] t1 IH]; simpl; congruence. Qed.

Lemma adapter_returns_app (t1 t2 : Trace) :
  adapter_returns (t1 ++ t2) = adapter_returns t1 ++ adapter_returns t2.
Proof. induction t1 as [|[] t1 IH]; simpl; congruence. Qed.

Lemma analytics_events_app (t1 t2 : Trace) :
  analytics_events (t1 ++ t2) = analytics_events t1 ++ analytics_events t2.
Proof. induction t1 as [|[] t1 IH]; simpl; congruence. Qed.

Lemma notifications_app (t1 t2 : Trace) :
  notifications (t1 ++ t2) = notifications t1 ++ notifications t2.
Proof. induction t1 as [|[] t1 IH]; simpl; congruence. Qed.

Lemma clock_readings_app (t1 t2 : Trace) :
  clock_readings (t1 ++ t2) = clock_readings t1 ++ clock_readings t2.
Proof. induction t1 as [|[] t1 IH]; simpl; congruence. Qed.

Create Rewrite HintDb trace.
#[export] Hint Rewrite status_writes_app status_write_outcomes_app
  adapter_calls_app adapter_returns_app analytics_events_app
  notifications_app clock_readings_app : trace.

(** A best-effort write is one status write and at most one warning. *)
Lemma status_writes_write_events (r : Recording) (o : Result unit DbError)
    (warning : DbError -> Notification) :
  status_writes (write_events r o warning) = [r].
Proof. by destruct o. Qed.

Lemma status_write_outcomes_write_events (r : Recording)
    (o : Result unit DbError) (warning : DbError -> Notification) :
  status_write_outcomes (write_events r o warning) = [o].
Proof. by destruct o. Qed.

Lemma notifications_write_events (r : Recording) (o : Result unit DbError)
    (warning : DbError -> Notification) :
  notifications (write_events r o warning)
  = match o with Err e => [warning e] | Ok _ => [] end.
Proof. by destruct o. Qed.

Lemma adapter_calls_write_events (r : Recording) (o : Result unit DbError)
    (warning : DbError -> Notification) :
  adapter_calls (write_events r o warning) = [].
Proof. by destruct o. Qed.

Lemma adapter_returns_write_events (r : Recording) (o : Result unit DbError)
    (warning : DbError -> Notification) :
  adapter_returns (write_events r o warning) = [].
Proof. by destruct o. Qed.

Lemma analytics_events_write_events (r : Recording) (o : Result unit DbError)
    (warning : DbError -> Notification) :
  analytics_events (write_events r o warning) = [].
Proof. by destruct o. Qed.

Lemma clock_readings_write_events (r : Recording) (o : Result unit DbError)
    (warning : DbError -> Notification) :
  clock_readings (write_events r o warning) = [].
Proof. by destruct o. Qed.

#[export] Hint Rewrite status_writes_write_events
  status_write_outcomes_write_events notifications_write_events
  adapter_calls_write_events adapter_returns_write_events
  analytics_events_write_events clock_readings_write_events : trace.

(** What the switch does: one adapter call on the blob when a provider is
    selected, nothing otherwise. *)
Lemma run_selectAndTranscribe (w : World) (s : Settings) (b : Blob)
    (h : Trace) :
  (knownService (selectedTranscriptionService s) = true
   /\ exists c, call_blob c = b
        /\ run w (selectAndTranscribe s b) h
           = (transcribe_outcome w (h ++ [EvTranscribeCall c]) c,
              [EvTranscribeCall c;
               EvTranscribeRet c
                 (transcribe_outcome w (h ++ [EvTranscribeCall c]) c)]))
  \/ (knownService (selectedTranscriptionService s) = false
      /\ run w (selectAndTranscribe s b) h = (noServiceSelected, [])).
Proof.
  destruct (selectAndTranscribe_cases s b) as [[Hk (c & Hc & ->)]|[Hk ->]].
  - left; split; [exact Hk|]. exists c; split; [exact Hc|].
    apply run_adapter_call.
  - right; split; [exact Hk|reflexivity].
Qed.

(** [transcribeBlob] seen through its trace: the event [requested] and the
    first reading of the clock, at most one adapter call, the second
    reading of the clock and the terminal event. *)
Lemma transcribeBlob_trace (w : World) (b : Blob) (h : Trace) :
  let service := selectedTranscriptionService (settings_value w h) in
  let tb := run w (transcribeBlob b) h in
  exists pre sel post t0 t1,
    tb.2 = pre ++ sel ++ post
    /\ quiet pre /\ quiet post
    /\ analytics_events pre = [transcription_requested service]
    /\ clock_readings pre = [t0]
    /\ analytics_events post = [terminal_event service (t1 - t0) tb.1]
    /\ clock_readings post = [t1]
    /\ ((knownService service = true
         /\ exists c, call_blob c = b
              /\ sel = [EvTranscribeCall c; EvTranscribeRet c tb.1])
        \/ (knownService service = false
            /\ tb.1 = noServiceSelected /\ sel = [])).
Proof.
  intros service tb. subst tb. rewrite run_transcribeBlob.
  cbv zeta. fold service.
  set (s := settings_value w h).
  set (t0 := date_now w (h ++ [EvSettings s])).
  set (pre := [EvSettings s; EvNow t0;
               EvConsole (console_starting service (blob_size b) true);
               EvLogEvent (transcription_requested service)]).
  destruct (run_selectAndTranscribe w s b (h ++ pre))
    as [[Hk (c & Hc & Hrun)]|[Hk Hrun]]; rewrite Hrun; cbn [fst snd].
  - eexists pre, _, _, t0, _. split; [reflexivity|].
    repeat split; try reflexivity.
    left. split; [exact Hk|]. exists c. split; [exact Hc|reflexivity].
  - eexists pre, [], _, t0, _. split; [reflexivity|].
    repeat split; try reflexivity.
    right. repeat split; try reflexivity. exact Hk.
Qed.

(** [transcribeRecording] on a recording that has a blob, seen through its
    trace. *)
Lemma transcribeRecording_trace (w : World) (r : Recording) (b : Blob)
    (h : Trace) :
  blob r = Some b ->
  let out := run w (transcribeRecording r) h in
  exists o1 o2 pre sel post t0 t1 h1,
    let service := selectedTranscriptionService (settings_value w h1) in
    out.2 = write_events (with_status r TRANSCRIBING) o1 warnTranscribing
            ++ pre ++ sel ++ post
            ++ write_events (final_write r out.1) o2 (final_warning out.1)
    /\ quiet pre /\ quiet post
    /\ analytics_events pre = [transcription_requested service]
    /\ clock_readings pre = [t0]
    /\ analytics_events post = [terminal_event service (t1 - t0) out.1]
    /\ clock_readings post = [t1]
    /\ ((knownService service = true
         /\ exists c, call_blob c = b
              /\ sel = [EvTranscribeCall c; EvTranscribeRet c out.1])
        \/ (knownService service = false
            /\ out.1 = noServiceSelected /\ sel = [])).
Proof.
  intros Hb out. subst out. rewrite (run_transcribeRecording w r b h Hb).
  cbv zeta. cbn [fst snd].
  set (o1 := updateRecording_outcome w _ (with_status r TRANSCRIBING)).
  set (u1 := write_events (with_status r TRANSCRIBING) o1 warnTranscribing).
  destruct (transcribeBlob_trace w b (h ++ u1))
    as (pre & sel & post & t0 & t1 & Htb & Hrest).
  eexists o1, _, pre, sel, post, t0, t1, (h ++ u1).
  split; [|exact Hrest].
  rewrite Htb. by rewrite <- !app_assoc.
Qed.

(** ** The analytics sink is never consulted *)

Lemma sink_blind_bind {A B} (m : Prog A) (f : A -> Prog B) :
  sink_blind m -> (forall a, sink_blind (f a)) -> sink_blind (bind m f).
Proof.
  intros Hm Hf.
  induction m as [a|k IH|k IH|l k IH|e k IH|n k IH|r k IH|c k IH|k IH];
    simpl in *; auto.
  destruct Hm as [Hconst Hk]. split.
  - intros x y. by rewrite (Hconst x y).
  - intros x. apply IH, Hk.
Qed.

Lemma run_sink_blind {A} (w : World)
    (sink : Trace -> AnalyticsEvent -> Result unit SinkError) (p : Prog A) :
  sink_blind p -> forall h, run (with_logEvent w sink) p h = run w p h.
Proof.
  induction p as [a|k IH|k IH|l k IH|e k IH|n k IH|r k IH|c k IH|k IH];
    simpl; intros Hp h; auto.
  - by rewrite IH.
  - by rewrite IH.
  - by rewrite IH.
  - destruct Hp as [Hconst Hk].
    rewrite (Hconst (sink h e) (logEvent_outcome w h e)). by rewrite IH.
  - by rewrite IH.
  - by rewrite IH.
  - by rewrite IH.
Qed.

Lemma sink_blind_await {A} (m : Prog A) : sink_blind m -> sink_blind (await m).
Proof. intros Hm. apply sink_blind_bind; [exact Hm|]. intros a; exact I. Qed.

Lemma sink_blind_transcribeBlob (b : Blob) : sink_blind (transcribeBlob b).
Proof.
  unfold transcribeBlob; simpl. intros s t0. split; [reflexivity|]. intros _.
  apply sink_blind_bind.
  - apply sink_blind_await.
    destruct (selectAndTranscribe_cases s b) as [[_ (c & _ & ->)]|[_ ->]];
      simpl; auto.
  - intros [text|err]; simpl; intros t1; (split; [reflexivity|]); auto.
Qed.

Lemma sink_blind_warnOnError (o : Result unit DbError)
    (warning : DbError -> Notification) : sink_blind (warnOnError o warning).
Proof. destruct o; simpl; auto. Qed.

Lemma sink_blind_transcribeRecording (r : Recording) :
  sink_blind (transcribeRecording r).
Proof.
  unfold transcribeRecording. destruct (blob r) as [b|]; [|exact I].
  apply sink_blind_bind; [simpl; auto|]. intros o1.
  apply sink_blind_bind; [apply sink_blind_warnOnError|]. intros _.
  apply sink_blind_bind;
    [apply sink_blind_await, sink_blind_transcribeBlob|].
  intros [text|err];
    (apply sink_blind_bind; [simpl; auto|]); intros o2;
    (apply sink_blind_bind; [apply sink_blind_warnOnError|]); intros _;
    exact I.
Qed.

(** ** The single-item path *)

Ltac read_trace :=
  repeat match goal with
  | H : quiet _ |- _ => destruct H as (? & ? & ? & ? & ?)
  end;
  autorewrite with trace;
  repeat match goal with
  | H : ?f ?x = _ |- context [?f ?x] => rewrite H
  end;
  cbn [status_writes status_write_outcomes notifications adapter_calls
       adapter_returns analytics_events clock_readings app].

(** The adapter answers that [transcribeRecording] received are the result
    it returns, when an adapter was called. *)
Lemma transcribeRecording_adapter_returns (w : World) (r : Recording)
    (b : Blob) (h : Trace) (res : TranscriptionResult) :
  blob r = Some b ->
  In res (adapter_returns (run w (transcribeRecording r) h).2) ->
  (run w (transcribeRecording r) h).1 = res.
Proof.
  intros Hb Hin.
  destruct (transcribeRecording_trace w r b h Hb)
    as (o1 & o2 & pre & sel & post & t0 & t1 & h1 & Htr & Hpre & Hpost & _
        & _ & _ & _ & Hsel).
  rewrite Htr in Hin. revert Hin.
  destruct Hsel as [[_ (c & _ & ->)]|[_ [_ ->]]]; read_trace; intros Hin.
  - destruct Hin as [Hin|[]]. exact Hin.
  - destruct Hin.
Qed.

(** The status writes of [transcribeRecording] on a recording that has a
    blob: TRANSCRIBING, then DONE with the text or FAILED. *)
Lemma transcribeRecording_status_writes (w : World) (r : Recording) (b : Blob)
    (h : Trace) :
  blob r = Some b ->
  status_writes (run w (transcribeRecording r) h).2
  = [with_status r TRANSCRIBING;
     final_write r (run w (transcribeRecording r) h).1].
Proof.
  intros Hb.
  destruct (transcribeRecording_trace w r b h Hb)
    as (o1 & o2 & pre & sel & post & t0 & t1 & h1 & Htr & Hpre & Hpost & _
        & _ & _ & _ & Hsel).
  rewrite Htr.
  destruct Hsel as [[_ (c & _ & ->)]|[_ [_ ->]]]; read_trace; reflexivity.
Qed.

(** C1.  When the recording has a blob and the adapter answers
    [Success(text)], [transcribeRecording] returns [Success(text)] and its
    last status write is the recording with status DONE and that text; this
    holds in every world, so whether the writes of TRANSCRIBING and DONE
    succeed or fail. *)
Theorem adapter_success_returned (w : World) (r : Recording)
    (b : Blob) (h : Trace) (text : string) :
  blob r = Some b ->
  In (Ok text) (adapter_returns (run w (transcribeRecording r) h).2) ->
  (run w (transcribeRecording r) h).1 = Ok text
  /\ last (status_writes (run w (transcribeRecording r) h).2)
     = Some (with_text_status r text DONE)
  /\ transcriptionStatus (with_text_status r text DONE) = DONE
  /\ transcribedText (with_text_status r text DONE) = Some text.
Proof.
  intros Hb Hin.
  pose proof (transcribeRecording_adapter_returns w r b h _ Hb Hin) as Hres.
  split; [exact Hres|].
  rewrite (transcribeRecording_status_writes w r b h Hb), Hres.
  repeat split.
Qed.

(** The world of the example where every status write fails: the result is
    the text all the same. *)
Lemma adapter_success_returned_witness :
  let w := stub_world "Groq" answer_by_size true false in
  (blob recording_r1 = Some (wav 1)
   /\ In (Ok "hello world")
        (adapter_returns (run w (transcribeRecording recording_r1) []).2))
  /\ status_write_outcomes (run w (transcribeRecording recording_r1) []).2
     = [Err {| db_message := "quota exceeded" |};
        Err {| db_message := "quota exceeded" |}]
  /\ (run w (transcribeRecording recording_r1) []).1 = Ok "hello world"
  /\ last (status_writes (run w (transcribeRecording recording_r1) []).2)
     = Some (with_text_status recording_r1 "hello world" DONE)
  /\ transcriptionStatus (with_text_status recording_r1 "hello world" DONE)
     = DONE
  /\ transcribedText (with_text_status recording_r1 "hello world" DONE)
     = Some "hello world".
Proof.
  intros w.
  assert (Hb : blob recording_r1 = Some (wav 1)) by reflexivity.
  assert (Hin : In (Ok "hello world")
                  (adapter_returns
                     (run w (transcribeRecording recording_r1) []).2))
    by (vm_compute; left; reflexivity).
  split; [exact (conj Hb Hin)|]. split; [reflexivity|].
  exact (adapter_success_returned w recording_r1 (wav 1) []
           "hello world" Hb Hin).
Defined.








(** C6.  When the recording has no blob, [transcribeRecording] returns the
    failure "recording blob not found" and writes nothing to the status
    store. *)
Theorem missing_blob_is_rejected (w : World) (r : Recording)
    (h : Trace) :
  blob r = None ->
  (run w (transcribeRecording r) h).1 = blobNotFound
  /\ status_writes (run w (transcribeRecording r) h).2 = [].
Proof.
  intros Hb. unfold transcribeRecording. rewrite Hb. split; reflexivity.
Qed.

Lemma missing_blob_is_rejected_witness :
  let w := stub_world "Groq" answer_by_size false false in
  blob recording_noblob = None
  /\ (run w (transcribeRecording recording_noblob) []).1 = blobNotFound
  /\ status_writes (run w (transcribeRecording recording_noblob) []).2 = [].
Proof.
  intros w.
  assert (Hb : blob recording_noblob = None) by reflexivity.
  split; [exact Hb|].
  exact (missing_blob_is_rejected w recording_noblob [] Hb).
Defined.

(** C10.  When the recording has no blob, [transcribeRecording] sends
    nothing to the analytics sink and nothing to the notification sink: it
    returns before any call to a collaborator. *)
Theorem missing_blob_is_silent (w : World) (r : Recording)
    (h : Trace) :
  blob r = None ->
  analytics_events (run w (transcribeRecording r) h).2 = []
  /\ notifications (run w (transcribeRecording r) h).2 = []
  /\ (run w (transcribeRecording r) h).2 = [].
Proof.
  intros Hb. unfold transcribeRecording. rewrite Hb. repeat split.
Qed.

Lemma missing_blob_is_silent_witness :
  let w := stub_world "Groq" answer_by_size true true in
  blob recording_noblob = None
  /\ analytics_events (run w (transcribeRecording recording_noblob) []).2 = []
  /\ notifications (run w (transcribeRecording recording_noblob) []).2 = []
  /\ (run w (transcribeRecording recording_noblob) []).2 = [].
Proof.
  intros w.
  assert (Hb : blob recording_noblob = None) by reflexivity.
  split; [exact Hb|].
  exact (missing_blob_is_silent w recording_noblob [] Hb).
Defined.

(** C9.  When [transcribeRecording] calls an adapter, its trace is: a
    stretch holding exactly one analytics event, [requested], and the first
    reading of the clock; the adapter call and its answer; a stretch
    holding exactly one analytics event, [completed] with the time elapsed
    between the two readings of the clock when the answer is a success,
    [failed] with the title and description of the error when it is a
    failure.  The result is the answer of the adapter, and the value and
    trace of the run are the same whatever the analytics sink answers. *)
Theorem observability_events (w : World) (r : Recording)
    (h : Trace) (c : AdapterCall) :
  In c (adapter_calls (run w (transcribeRecording r) h).2) ->
  (exists before after res service t0 t1,
     (run w (transcribeRecording r) h).2
     = before ++ EvTranscribeCall c :: EvTranscribeRet c res :: after
     /\ (run w (transcribeRecording r) h).1 = res
     /\ analytics_events before = [transcription_requested service]
     /\ clock_readings before = [t0]
     /\ clock_readings after = [t1]
     /\ analytics_events after
        = [match res with
           | Ok _ => transcription_completed service (t1 - t0)
           | Err error =>
               transcription_failed service (title error) (description error)
           end])
  /\ forall sink,
       run (with_logEvent w sink) (transcribeRecording r) h
       = run w (transcribeRecording r) h.
Proof.
  intros Hin. split.
  - destruct (blob r) as [b|] eqn:Hb.
    2:{ unfold transcribeRecording in Hin. rewrite Hb in Hin. destruct Hin. }
    destruct (transcribeRecording_trace w r b h Hb)
      as (o1 & o2 & pre & sel & post & t0 & t1 & h1 & Htr & Hpre & Hpost
          & Hreq & Ht0 & Hterm & Ht1 & Hsel).
    cbv zeta in Htr, Hreq, Hterm.
    set (service := selectedTranscriptionService (settings_value w h1)) in *.
    assert (Hc : sel = [EvTranscribeCall c;
                        EvTranscribeRet c (run w (transcribeRecording r) h).1]).
    { rewrite Htr in Hin. revert Hin.
      destruct Hsel as [[_ (c' & _ & ->)]|[_ [_ ->]]]; read_trace.
      - intros [->|[]]. reflexivity.
      - intros []. }
    rewrite Hc in Htr.
    exists (write_events (with_status r TRANSCRIBING) o1 warnTranscribing
            ++ pre),
           (post ++ write_events
                      (final_write r (run w (transcribeRecording r) h).1) o2
                      (final_warning (run w (transcribeRecording r) h).1)),
           (run w (transcribeRecording r) h).1, service, t0, t1.
    split; [rewrite Htr, <- !app_assoc; reflexivity|].
    split; [reflexivity|].
    repeat split; read_trace; reflexivity.
  - intros sink. apply run_sink_blind, sink_blind_transcribeRecording.
Qed.

Lemma observability_events_witness :
  let w := stub_world "Groq" answer_by_size false true in
  let c := {| call_adapter := groq; call_blob := wav 1;
              call_options :=
                set_apiKey_model (shared_options (stub_settings "Groq" ""))
                  "gsk" "whisper-large-v3" |} in
  In c (adapter_calls (run w (transcribeRecording recording_r1) []).2)
  /\ analytics_events (run w (transcribeRecording recording_r1) []).2
     = [transcription_requested "Groq"; transcription_completed "Groq" 250]
  /\ (exists before after res service t0 t1,
        (run w (transcribeRecording recording_r1) []).2
        = before ++ EvTranscribeCall c :: EvTranscribeRet c res :: after
        /\ (run w (transcribeRecording recording_r1) []).1 = res
        /\ analytics_events before = [transcription_requested service]
        /\ clock_readings before = [t0]
        /\ clock_readings after = [t1]
        /\ analytics_events after
           = [match res with
              | Ok _ => transcription_completed service (t1 - t0)
              | Err error =>
                  transcription_failed service (title error)
                    (description error)
              end])
  /\ forall sink,
       run (with_logEvent w sink) (transcribeRecording recording_r1) []
       = run w (transcribeRecording recording_r1) [].
Proof.
  intros w c.
  assert (Hin : In c (adapter_calls
                        (run w (transcribeRecording recording_r1) []).2))
    by (vm_compute; left; reflexivity).
  split; [exact Hin|]. split; [reflexivity|].
  exact (observability_events w recording_r1 [] c Hin).
Defined.

(** ** Batches of programs *)

Section Pool.
Context {A : Type} (w : World).
Implicit Types (p : Prog A) (t : Thread A) (pool : list (Thread A))
  (h : Trace) (schedule : list nat).

(** The two interpreters agree: running a program up to its first
    suspension and finishing the thread is running the program. *)
Lemma run_sync_finish p h :
  emit (run_sync w p h).2
    (finish w (run_sync w p h).1 (h ++ (run_sync w p h).2))
  = run w p h.
Proof.
  revert h;
    induction p as [a|k IH|k IH|l k IH|e k IH|n k IH|r k IH|c k IH|k IH];
    intros h; simpl.
  - reflexivity.
  - by rewrite <- IH, emit_emit, <- app_assoc.
  - by rewrite <- IH, emit_emit, <- app_assoc.
  - by rewrite <- IH, emit_emit, <- app_assoc.
  - by rewrite <- IH, emit_emit, <- app_assoc.
  - by rewrite <- IH, emit_emit, <- app_assoc.
  - by rewrite emit_emit, <- app_assoc.
  - by rewrite emit_emit, <- app_assoc.
  - by rewrite emit_nil, app_nil_r.
Qed.

(** Waking a thread up and finishing it later is finishing it. *)
Lemma resume_finish t h :
  emit (resume w t h).2
    (finish w (resume w t h).1 (h ++ (resume w t h).2))
  = finish w t h.
Proof.
  destruct t as [a|k|r k|c k]; simpl.
  - reflexivity.
  - apply run_sync_finish.
  - by rewrite <- run_sync_finish, emit_emit, <- app_assoc.
  - by rewrite <- run_sync_finish, emit_emit, <- app_assoc.
Qed.

Lemma drive_join_alone schedule t h :
  emit (drive w schedule [t] h).2
    (join_all w (drive w schedule [t] h).1
       (h ++ (drive w schedule [t] h).2))
  = ([(finish w t h).1], (finish w t h).2).
Proof.
  revert t h; induction schedule as [|i schedule IH]; intros t h; simpl.
  - unfold emit; simpl. by rewrite !app_nil_r.
  - destruct i as [|i]; simpl; [|apply IH].
    rewrite <- emit_emit, app_assoc, IH.
    rewrite <- (resume_finish t h). reflexivity.
Qed.

(** A program that runs alone returns the same value and causes the same
    events under every schedule; [run] is that value and those events. *)
Lemma promise_all_alone schedule p h :
  promise_all w schedule [p] h = ([(run w p h).1], (run w p h).2).
Proof.
  unfold promise_all; simpl. rewrite !app_nil_r.
  pose proof (drive_join_alone schedule (run_sync w p h).1
                (h ++ (run_sync w p h).2)) as Hdrive.
  unfold emit in Hdrive; simpl in Hdrive.
  injection Hdrive as Hval Hevs.
  rewrite <- app_assoc in Hval, Hevs. rewrite Hval, Hevs.
  rewrite <- (run_sync_finish p h). reflexivity.
Qed.

Lemma run_sync_no_update p h :
  no_update p ->
  status_writes (run_sync w p h).2 = []
  /\ thread_no_update (run_sync w p h).1.
Proof.
  revert h;
    induction p as [a|k IH|k IH|l k IH|e k IH|n k IH|r k IH|c k IH|k IH];
    intros h Hp; simpl in *; auto.
  destruct Hp.
Qed.

Lemma run_no_update p h :
  no_update p -> status_writes (run w p h).2 = [].
Proof.
  revert h;
    induction p as [a|k IH|k IH|l k IH|e k IH|n k IH|r k IH|c k IH|k IH];
    intros h Hp; simpl in *; auto.
  destruct Hp.
Qed.

Lemma resume_no_update t h :
  thread_no_update t ->
  status_writes (resume w t h).2 = []
  /\ thread_no_update (resume w t h).1.
Proof.
  destruct t as [a|k|r k|c k]; simpl; intros Ht; auto.
  - by apply run_sync_no_update.
  - destruct Ht.
  - by apply run_sync_no_update.
Qed.

Lemma finish_no_update t h :
  thread_no_update t -> status_writes (finish w t h).2 = [].
Proof.
  destruct t as [a|k|r k|c k]; simpl; intros Ht; auto.
  - by apply run_no_update.
  - destruct Ht.
  - by apply run_no_update.
Qed.

Lemma spawn_all_no_update (ps : list (Prog A)) h :
  Forall no_update ps ->
  status_writes (spawn_all w ps h).2 = []
  /\ Forall thread_no_update (spawn_all w ps h).1.
Proof.
  intros Hps; revert h; induction Hps as [|p ps Hp _ IH]; intros h; simpl.
  - split; constructor.
  - destruct (run_sync_no_update p h Hp) as [E1 T1].
    destruct (IH (h ++ (run_sync w p h).2)) as [E2 T2].
    rewrite status_writes_app, E1, E2. split; [reflexivity|].
    by constructor.
Qed.

Lemma drive_no_update schedule pool h :
  Forall thread_no_update pool ->
  status_writes (drive w schedule pool h).2 = []
  /\ Forall thread_no_update (drive w schedule pool h).1.
Proof.
  revert pool h; induction schedule as [|i schedule IH]; intros pool h Hpool;
    simpl; [by split|].
  destruct (pool !! i) as [t|] eqn:Hi; [|by apply IH].
  destruct (resume_no_update t h (Forall_lookup_1 _ _ _ _ Hpool Hi))
    as [E1 T1].
  destruct (IH (<[i:=(resume w t h).1]> pool) (h ++ (resume w t h).2)
               (Forall_insert _ _ _ _ Hpool T1)) as [E2 T2].
  simpl. rewrite status_writes_app, E1, E2. by split.
Qed.

Lemma join_all_no_update pool h :
  Forall thread_no_update pool ->
  status_writes (join_all w pool h).2 = [].
Proof.
  intros Hpool; revert h; induction Hpool as [|t pool Ht _ IH]; intros h;
    simpl; [reflexivity|].
  by rewrite status_writes_app, (finish_no_update t h Ht), IH.
Qed.

(** A batch of programs that never write to the status store never writes
    to it, whatever the schedule. *)
Lemma promise_all_no_update schedule (ps : list (Prog A)) h :
  Forall no_update ps ->
  status_writes (promise_all w schedule ps h).2 = [].
Proof.
  intros Hps. unfold promise_all; simpl.
  destruct (spawn_all_no_update ps h Hps) as [E1 T1].
  destruct (drive_no_update schedule _ (h ++ (spawn_all w ps h).2) T1)
    as [E2 T2].
  by rewrite !status_writes_app, E1, E2, (join_all_no_update _ _ T2).
Qed.

Lemma run_sync_always (Q : A -> Prop) p h :
  always w Q p -> thread_always w Q (run_sync w p h).1.
Proof.
  revert h;
    induction p as [a|k IH|k IH|l k IH|e k IH|n k IH|r k IH|c k IH|k IH];
    intros h Hp; simpl in *; auto.
Qed.

Lemma run_always (Q : A -> Prop) p h :
  always w Q p -> Q (run w p h).1.
Proof.
  revert h;
    induction p as [a|k IH|k IH|l k IH|e k IH|n k IH|r k IH|c k IH|k IH];
    intros h Hp; simpl in *; auto.
Qed.

Lemma resume_always (Q : A -> Prop) t h :
  thread_always w Q t -> thread_always w Q (resume w t h).1.
Proof.
  destruct t as [a|k|r k|c k]; simpl; intros Ht; auto;
    by apply run_sync_always.
Qed.

Lemma finish_always (Q : A -> Prop) t h :
  thread_always w Q t -> Q (finish w t h).1.
Proof.
  destruct t as [a|k|r k|c k]; simpl; intros Ht; auto;
    by apply run_always.
Qed.

Context {X : Type} (Q : X -> A -> Prop).

Lemma spawn_all_always (xs : list X) (ps : list (Prog A)) h :
  Forall2 (fun x p => always w (Q x) p) xs ps ->
  Forall2 (fun x t => thread_always w (Q x) t) xs (spawn_all w ps h).1.
Proof.
  intros Hps; revert h; induction Hps as [|x p xs ps Hp _ IH]; intros h;
    simpl; constructor; [by apply run_sync_always|apply IH].
Qed.

Lemma drive_always (xs : list X) schedule pool h :
  Forall2 (fun x t => thread_always w (Q x) t) xs pool ->
  Forall2 (fun x t => thread_always w (Q x) t) xs
    (drive w schedule pool h).1.
Proof.
  revert pool h; induction schedule as [|i schedule IH]; intros pool h Hpool;
    simpl; [exact Hpool|].
  destruct (pool !! i) as [t|] eqn:Hi; [|by apply IH].
  simpl. apply IH.
  destruct (Forall2_lookup_r _ _ _ _ _ Hpool Hi) as (x & Hx & Ht).
  rewrite <- (list_insert_id xs i x Hx).
  apply Forall2_insert; [exact Hpool|]. by apply resume_always.
Qed.

Lemma join_all_always (xs : list X) pool h :
  Forall2 (fun x t => thread_always w (Q x) t) xs pool ->
  Forall2 Q xs (join_all w pool h).1.
Proof.
  intros Hpool; revert h; induction Hpool as [|x t xs pool Ht _ IH];
    intros h; simpl; constructor; [by apply finish_always|apply IH].
Qed.

(** Each value of a batch is a value its program can return, at the same
    position, whatever the schedule. *)
Lemma promise_all_always (xs : list X) schedule (ps : list (Prog A)) h :
  Forall2 (fun x p => always w (Q x) p) xs ps ->
  Forall2 Q xs (promise_all w schedule ps h).1.
Proof.
  intros Hps. unfold promise_all; simpl.
  by apply join_all_always, drive_always, spawn_all_always.
Qed.
End Pool.

Lemma no_update_bind {A B} (m : Prog A) (f : A -> Prog B) :
  no_update m -> (forall a, no_update (f a)) -> no_update (bind m f).
Proof.
  intros Hm Hf.
  induction m as [a|k IH|k IH|l k IH|e k IH|n k IH|r k IH|c k IH|k IH];
    simpl in *; auto.
Qed.

Lemma always_bind {A B} (w : World) (Q : B -> Prop) (m : Prog A)
    (f : A -> Prog B) :
  always w (fun a => always w Q (f a)) m -> always w Q (bind m f).
Proof.
  induction m as [a|k IH|k IH|l k IH|e k IH|n k IH|r k IH|c k IH|k IH];
    simpl in *; auto.
Qed.

Lemma always_impl {A} (w : World) (Q Q' : A -> Prop) (p : Prog A) :
  (forall a, Q a -> Q' a) -> always w Q p -> always w Q' p.
Proof.
  intros HQ.
  induction p as [a|k IH|k IH|l k IH|e k IH|n k IH|r k IH|c k IH|k IH];
    simpl in *; auto.
Qed.

(** ** The batch path *)

Lemma no_update_await {A} (m : Prog A) : no_update m -> no_update (await m).
Proof. intros Hm. apply no_update_bind; [exact Hm|]. intros a; exact I. Qed.

Lemma no_update_transcribeBlob (b : Blob) : no_update (transcribeBlob b).
Proof.
  unfold transcribeBlob; simpl. intros s t0 _.
  apply no_update_bind.
  - apply no_update_await.
    destruct (selectAndTranscribe_cases s b) as [[_ (c & _ & ->)]|[_ ->]];
      simpl; auto.
  - intros [text|err]; simpl; auto.
Qed.

Lemma no_update_transcribeItem (r : Recording) : no_update (transcribeItem r).
Proof.
  unfold transcribeItem. destruct (blob r) as [b|]; [|exact I].
  apply no_update_await, no_update_transcribeBlob.
Qed.

Lemma always_transcribeItem (w : World) (r : Recording) :
  always w (item_result w r) (transcribeItem r).
Proof.
  unfold transcribeItem, item_result. destruct (blob r) as [b|]; [|reflexivity].
  unfold await. apply always_bind.
  unfold transcribeBlob; simpl. intros h t0 _.
  apply always_bind. unfold await at 1. apply always_bind.
  destruct (selectAndTranscribe_cases (settings_value w h) b)
    as [[Hk (c & Hc & ->)]|[Hk ->]]; simpl.
  - intros h' t1.
    destruct (transcribe_outcome w h' c) as [text|err] eqn:Hres; simpl;
      intros _; right; exists h, h', c; by rewrite Hres.
  - intros t1 _. left. split; [reflexivity|]. by exists h.
Qed.

(** The results that [transcribeRecordings] partitions: one per recording,
    in the order of the input. *)
Lemma transcribeRecordings_results (w : World) (schedule : list nat)
    (recordings : list Recording) (h : Trace) :
  exists results,
    Forall2 (item_result w) recordings results
    /\ (transcribeRecordings w schedule recordings h).1
       = Ok (partitionResults results).
Proof.
  exists (promise_all w schedule (map transcribeItem recordings) h).1.
  split; [|reflexivity].
  apply promise_all_always.
  induction recordings as [|r recordings IH]; simpl; constructor;
    [apply always_transcribeItem|exact IH].
Qed.

(** C5, as the code has it.  [transcribeRecordings] partitions the results
    of its items, which are in the order of the input, one per recording:
    the successes are the results that are successes, in that order, and
    the failures are the results that are failures, in that order.  The
    entries are results, a text or an error, and no more. *)
Theorem batch_partition_in_input_order (w : World) (schedule : list nat)
    (recordings : list Recording) (h : Trace) :
  exists results,
    Forall2 (item_result w) recordings results
    /\ (transcribeRecordings w schedule recordings h).1
       = Ok {| oks := List.filter isOk results;
               errs := List.filter isErr results |}.
Proof. apply transcribeRecordings_results. Qed.

(** Name the results of a batch of known length, and decide each one in a
    world whose settings and adapter answers are known. *)
Ltac split_results :=
  repeat match goal with
  | H : Forall2 _ (_ :: _) _ |- _ =>
      let H1 := fresh "Hitem" in
      apply Forall2_cons_inv_l in H; destruct H as (? & ? & H1 & H & ->);
      unfold item_result in H1; simpl in H1
  | H : Forall2 _ [] _ |- _ => apply Forall2_nil_inv_l in H; subst
  end;
  repeat match goal with
  | H : _ \/ _ |- _ =>
      destruct H as [[-> [? Hk]]|(? & ? & ? & Hk & Hc & ->)];
        [try discriminate Hk|try discriminate Hk; simpl; rewrite ?Hc];
        clear Hk; try clear Hc
  end;
  subst.

(** The batch of the spec: three recordings, the second one fails.  The
    outcome is the same for every schedule. *)
Example batch_of_three_example (schedule : list nat) :
  (transcribeRecordings (stub_world "Groq" answer_by_size false false)
     schedule [recording_r1; recording_r2; recording_r3] []).1
  = Ok {| oks := [Ok "hello world"; Ok "hello world"];
          errs := [Err rateLimited] |}.
Proof.
  destruct (transcribeRecordings_results
              (stub_world "Groq" answer_by_size false false)
              schedule [recording_r1; recording_r2; recording_r3] [])
    as (results & Hres & ->).
  split_results.
  reflexivity.
Qed.

(** C5 as stated does not hold: the outcome does not hold the
    recordings.  Two batches of one recording each, with the same audio and
    different identifiers, have the same outcome, so that no function reads
    the recordings of a batch off its outcome. *)
Lemma batch_outcome_forgets_recordings :
  let w := stub_world "Groq" answer_by_size false false in
  recording_r1 <> recording_r4
  /\ (transcribeRecordings w [] [recording_r1] []).1
     = (transcribeRecordings w [] [recording_r4] []).1
  /\ ~ exists origin : BatchOutcome -> list Recording,
         forall schedule recordings h out,
           (transcribeRecordings w schedule recordings h).1 = Ok out ->
           errs out = [] ->
           origin out = recordings.
Proof.
  intros w.
  assert (Hne : recording_r1 <> recording_r4) by discriminate.
  assert (Heq : (transcribeRecordings w [] [recording_r1] []).1
                = (transcribeRecordings w [] [recording_r4] []).1)
    by reflexivity.
  split; [exact Hne|]. split; [exact Heq|].
  intros [origin Horigin].
  set (out := {| oks := [Ok "hello world"]; errs := [] |} : BatchOutcome).
  assert (H1 : origin out = [recording_r1])
    by (apply (Horigin [] [recording_r1] []); reflexivity).
  assert (H4 : origin out = [recording_r4])
    by (apply (Horigin [] [recording_r4] []); reflexivity).
  apply Hne. congruence.
Qed.

(** C7.  [transcribeRecordings] writes nothing to the status store, whatever
    the recordings and the schedule. *)
Theorem batch_writes_no_status (w : World)
    (schedule : list nat) (recordings : list Recording) (h : Trace) :
  status_writes (transcribeRecordings w schedule recordings h).2 = [].
Proof.
  unfold transcribeRecordings; simpl.
  apply promise_all_no_update.
  induction recordings as [|r recordings IH]; simpl; constructor;
    [apply no_update_transcribeItem|exact IH].
Qed.

(** C8.  [transcribeRecordings] returns [Ok], never a failure of the call,
    and what it carries is the partition of the results of its items: one
    result per recording, in the order of the input, each of them the result
    of that recording (see [item_result]).  The failures of the items are
    entries of the outcome.  When every item fails, the call still returns
    [Ok], with no success and with the results of all the recordings as
    failures. *)
Theorem batch_returns_ok (w : World) (schedule : list nat)
    (recordings : list Recording) (h : Trace) :
  exists results,
    Forall2 (item_result w) recordings results
    /\ (transcribeRecordings w schedule recordings h).1
       = Ok {| oks := List.filter isOk results;
               errs := List.filter isErr results |}
    /\ (forall error,
          (transcribeRecordings w schedule recordings h).1 <> Err error)
    /\ (Forall (fun res => isErr res = true) results ->
        (transcribeRecordings w schedule recordings h).1
        = Ok {| oks := []; errs := results |}).
Proof.
  destruct (transcribeRecordings_results w schedule recordings h)
    as (results & Hres & Hout).
  exists results. split; [exact Hres|].
  split; [exact Hout|].
  split; [intros error; rewrite Hout; discriminate|].
  intros Hall. rewrite Hout. f_equal. unfold partitionResults.
  clear Hres Hout.
  induction Hall as [|res results Hres _ IH]; [reflexivity|].
  destruct res as [text|err]; [discriminate Hres|]. simpl.
  injection IH as -> ->. reflexivity.
Qed.

(** The case of C8 in which every item fails is met: with no provider
    selected and one recording without a blob, the three results are
    failures and the call returns [Ok] with the three of them. *)
Lemma batch_returns_ok_witness :
  let w := stub_world "" answer_by_size false false in
  let recordings := [recording_r1; recording_noblob; recording_r3] in
  exists results,
    Forall2 (item_result w) recordings results
    /\ Forall (fun res => isErr res = true) results
    /\ length results = 3%nat
    /\ (transcribeRecordings w [2; 0; 1]%nat recordings []).1
       = Ok {| oks := []; errs := results |}.
Proof.
  intros w recordings.
  destruct (batch_returns_ok w [2; 0; 1]%nat recordings [])
    as (results & Hres & _ & _ & Hall).
  exists results.
  assert (Hfail : Forall (fun res => isErr res = true) results
                  /\ length results = 3%nat).
  { pose proof Hres as Hitems. unfold recordings in Hitems.
    split_results. split; [repeat constructor|reflexivity]. }
  destruct Hfail as [Hfail Hlen].
  split; [exact Hres|]. split; [exact Hfail|]. split; [exact Hlen|].
  exact (Hall Hfail).
Defined.

(** A batch in which every item fails: no provider is selected, and one
    recording has no blob.  The call returns [Ok] with three failures. *)
Example batch_all_fail_example (schedule : list nat) :
  (transcribeRecordings (stub_world "" answer_by_size false false)
     schedule [recording_r1; recording_noblob; recording_r3] []).1
  = Ok {| oks := [];
          errs := [noServiceSelected; blobNotFound; noServiceSelected] |}.
Proof.
  destruct (transcribeRecordings_results
              (stub_world "" answer_by_size false false)
              schedule [recording_r1; recording_noblob; recording_r3] [])
    as (results & Hres & ->).
  split_results.
  reflexivity.
Qed.

(** ** The adapter call of [transcribeBlob] *)

(** The adapter call that [transcribeBlob] makes is the one its switch
    selects on the settings it read first. *)
Lemma transcribeBlob_call (w : World) (b : Blob) (h : Trace)
    (c : AdapterCall) :
  In c (adapter_calls (run w (transcribeBlob b) h).2) ->
  selectAndTranscribe (settings_value w h) b = await (Transcribe c Ret).
Proof.
  rewrite run_transcribeBlob. cbv zeta; cbn [fst snd].
  autorewrite with trace; simpl. rewrite app_nil_r.
  destruct (selectAndTranscribe_cases (settings_value w h) b)
    as [[_ (c' & _ & Hsel)]|[_ Hsel]]; rewrite Hsel.
  - rewrite run_adapter_call. simpl. intros [->|[]]. reflexivity.
  - simpl. intros [].
Qed.

(** Read the adapter call off the branch of the switch that made it. *)
Ltac invert_call H :=
  unfold selectAndTranscribe, transcribe, await in H; simpl in H;
  repeat match type of H with
  | context [String.eqb ?x ?y] =>
      let E := fresh "Hservice" in destruct (String.eqb x y) eqn:E
  | context [truthy ?x] =>
      let E := fresh "Hendpoint" in destruct (truthy x) eqn:E
  end;
  try discriminate H;
  injection H as H; subst;
  repeat match goal with
  | E : String.eqb _ _ = true |- _ => apply String.eqb_eq in E
  end.

(** X1.  The adapter is called on the blob given to [transcribeBlob], with
    the output language, the prompt and the temperature of the settings
    read at the start of that call, whatever the provider. *)
Theorem adapter_call_shared_options (w : World) (b : Blob) (h : Trace)
    (c : AdapterCall) :
  In c (adapter_calls (run w (transcribeBlob b) h).2) ->
  call_blob c = b
  /\ cfg_outputLanguage (call_options c) = outputLanguage (settings_value w h)
  /\ cfg_prompt (call_options c) = prompt (settings_value w h)
  /\ cfg_temperature (call_options c) = temperature (settings_value w h).
Proof.
  intros Hin. apply transcribeBlob_call in Hin.
  invert_call Hin; repeat split.
Qed.

Lemma adapter_call_shared_options_witness :
  let w := stub_world "Deepgram" answer_by_size false false in
  let c := {| call_adapter := deepgram; call_blob := wav 3;
              call_options :=
                set_apiKey_model (shared_options (stub_settings "Deepgram" ""))
                  "dg" "nova-3" |} in
  In c (adapter_calls (run w (transcribeBlob (wav 3)) []).2)
  /\ call_blob c = wav 3
  /\ cfg_outputLanguage (call_options c) = outputLanguage (settings_value w [])
  /\ cfg_prompt (call_options c) = prompt (settings_value w [])
  /\ cfg_temperature (call_options c) = temperature (settings_value w []).
Proof.
  intros w c.
  assert (Hin : In c (adapter_calls (run w (transcribeBlob (wav 3)) []).2))
    by (vm_compute; left; reflexivity).
  split; [exact Hin|].
  exact (adapter_call_shared_options w (wav 3) [] c Hin).
Defined.

(** X2.  Each hosted provider receives its own API key and its own model
    name; the self-hosted server and the local engine receive no API key
    and no model name. *)
Theorem adapter_call_credentials (w : World) (b : Blob) (h : Trace)
    (c : AdapterCall) :
  In c (adapter_calls (run w (transcribeBlob b) h).2) ->
  let s := settings_value w h in
  (cfg_apiKey (call_options c), cfg_modelName (call_options c))
  = match call_adapter c with
    | nativeOpenai | openai => (Some (apiKeys_openai s), Some (openai_model s))
    | groq => (Some (apiKeys_groq s), Some (groq_model s))
    | elevenlabs => (Some (apiKeys_elevenlabs s), Some (elevenlabs_model s))
    | deepgram => (Some (apiKeys_deepgram s), Some (deepgram_model s))
    | speaches | whispercpp => (None, None)
    end.
Proof.
  intros Hin. apply transcribeBlob_call in Hin.
  invert_call Hin; reflexivity.
Qed.

Lemma adapter_call_credentials_witness :
  let w := stub_world "whispercpp" answer_by_size false false in
  let c := {| call_adapter := whispercpp; call_blob := wav 3;
              call_options :=
                set_whispercpp (shared_options (stub_settings "whispercpp" ""))
                  "/models/ggml-base.bin" false |} in
  In c (adapter_calls (run w (transcribeBlob (wav 3)) []).2)
  /\ (cfg_apiKey (call_options c), cfg_modelName (call_options c))
     = (None, None).
Proof.
  intros w c.
  assert (Hin : In c (adapter_calls (run w (transcribeBlob (wav 3)) []).2))
    by (vm_compute; left; reflexivity).
  split; [exact Hin|].
  exact (adapter_call_credentials w (wav 3) [] c Hin).
Defined.

(** X3.  The adapter called is the one of the selected service, and a base
    URL is passed exactly when a custom endpoint is set: "OpenAI" with an
    endpoint goes to the native client with that endpoint, "OpenAI" without
    one goes to the SDK client with no base URL, "Groq" gets a base URL only
    when its endpoint is set; the other providers never get one. *)
Theorem adapter_call_routing (w : World) (b : Blob) (h : Trace)
    (c : AdapterCall) :
  In c (adapter_calls (run w (transcribeBlob b) h).2) ->
  let s := settings_value w h in
  let service := selectedTranscriptionService s in
  match call_adapter c with
  | nativeOpenai =>
      service = "OpenAI" /\ apiEndpoints_openai s <> ""
      /\ cfg_baseURL (call_options c) = Some (apiEndpoints_openai s)
  | openai =>
      service = "OpenAI" /\ apiEndpoints_openai s = ""
      /\ cfg_baseURL (call_options c) = None
  | groq =>
      service = "Groq"
      /\ cfg_baseURL (call_options c)
         = (if String.eqb (apiEndpoints_groq s) "" then None
            else Some (apiEndpoints_groq s))
  | speaches =>
      service = "speaches" /\ cfg_baseURL (call_options c) = None
      /\ cfg_modelId (call_options c) = Some (speaches_modelId s)
      /\ cfg_baseUrl (call_options c) = Some (speaches_baseUrl s)
  | elevenlabs =>
      service = "ElevenLabs" /\ cfg_baseURL (call_options c) = None
  | deepgram =>
      service = "Deepgram" /\ cfg_baseURL (call_options c) = None
  | whispercpp =>
      service = "whispercpp" /\ cfg_baseURL (call_options c) = None
      /\ cfg_modelPath (call_options c) = Some (whispercpp_modelPath s)
      /\ cfg_useGpu (call_options c) = Some (whispercpp_useGpu s)
  end.
Proof.
  intros Hin. apply transcribeBlob_call in Hin.
  invert_call Hin; simpl; unfold truthy in *;
    repeat match goal with
    | E : negb (String.eqb ?x "") = _ |- _ =>
        destruct (String.eqb x "") eqn:?; try discriminate E; clear E
    | E : String.eqb _ _ = true |- _ => apply String.eqb_eq in E
    | E : String.eqb _ _ = false |- _ => apply String.eqb_neq in E
    end;
    repeat split; auto.
Qed.

Lemma adapter_call_routing_witness :
  let w := {| settings_value :=
                fun _ => stub_settings "OpenAI" "https://proxy.example/v1";
              date_now := fun _ => 0;
              logEvent_outcome := fun _ _ => Ok tt;
              notify_outcome := fun _ _ => Ok tt;
              updateRecording_outcome := fun _ _ => Ok tt;
              transcribe_outcome := fun _ _ => Ok "hi" |} in
  let c := {| call_adapter := nativeOpenai; call_blob := wav 3;
              call_options :=
                set_baseURL
                  (set_apiKey_model
                     (shared_options
                        (stub_settings "OpenAI" "https://proxy.example/v1"))
                     "sk-openai" "whisper-1")
                  "https://proxy.example/v1" |} in
  In c (adapter_calls (run w (transcribeBlob (wav 3)) []).2)
  /\ selectedTranscriptionService (settings_value w []) = "OpenAI"
  /\ apiEndpoints_openai (settings_value w []) <> ""
  /\ cfg_baseURL (call_options c)
     = Some (apiEndpoints_openai (settings_value w [])).
Proof.
  intros w c.
  assert (Hin : In c (adapter_calls (run w (transcribeBlob (wav 3)) []).2))
    by (vm_compute; left; reflexivity).
  split; [exact Hin|].
  exact (adapter_call_routing w (wav 3) [] c Hin).
Defined.

(** ** More on the single-item path *)

(** X4.  When no provider is selected, [transcribeBlob] still reports to
    the analytics sink: one event [requested] and one event [failed], both
    under the name found in the settings, the second with the title and
    description of the failure it returns; no adapter is called. *)
Theorem no_provider_is_reported (w : World) (b : Blob) (h : Trace) :
  let service := selectedTranscriptionService (settings_value w h) in
  knownService service = false ->
  (run w (transcribeBlob b) h).1 = noServiceSelected
  /\ adapter_calls (run w (transcribeBlob b) h).2 = []
  /\ analytics_events (run w (transcribeBlob b) h).2
     = [transcription_requested service;
        transcription_failed service
          "⚠️ No transcription service selected"
          "Please select a transcription service in settings."].
Proof.
  intros service Hk. rewrite run_transcribeBlob. cbv zeta; cbn [fst snd].
  fold service.
  destruct (selectAndTranscribe_cases (settings_value w h) b)
    as [[Hk' _]|[_ Hsel]].
  { fold service in Hk'. rewrite Hk in Hk'. discriminate. }
  rewrite Hsel. repeat split.
Qed.

Lemma no_provider_is_reported_witness :
  let w := stub_world "openai" answer_by_size false false in
  knownService (selectedTranscriptionService (settings_value w [])) = false
  /\ (run w (transcribeBlob (wav 1)) []).1 = noServiceSelected
  /\ adapter_calls (run w (transcribeBlob (wav 1)) []).2 = []
  /\ analytics_events (run w (transcribeBlob (wav 1)) []).2
     = [transcription_requested "openai";
        transcription_failed "openai"
          "⚠️ No transcription service selected"
          "Please select a transcription service in settings."].
Proof.
  intros w.
  assert (Hk : knownService
                 (selectedTranscriptionService (settings_value w [])) = false)
    by reflexivity.
  split; [exact Hk|].
  exact (no_provider_is_reported w (wav 1) [] Hk).
Defined.

(** X5.  [transcribeRecording] calls an adapter at most once, and every
    call it makes is answered before it returns: a failure of the adapter
    is not retried. *)
Theorem adapter_called_at_most_once (w : World) (r : Recording) (h : Trace) :
  (length (adapter_calls (run w (transcribeRecording r) h).2) <= 1)%nat
  /\ length (adapter_returns (run w (transcribeRecording r) h).2)
     = length (adapter_calls (run w (transcribeRecording r) h).2)
  /\ (isErr (run w (transcribeRecording r) h).1 = true ->
      Forall (fun res => isErr res = true)
        (adapter_returns (run w (transcribeRecording r) h).2)).
Proof.
  destruct (blob r) as [b|] eqn:Hb.
  2:{ unfold transcribeRecording. rewrite Hb. simpl. auto. }
  destruct (transcribeRecording_trace w r b h Hb)
    as (o1 & o2 & pre & sel & post & t0 & t1 & h1 & Htr & Hpre & Hpost & _
        & _ & _ & _ & Hsel).
  rewrite Htr.
  destruct Hsel as [[_ (c & _ & ->)]|[_ [_ ->]]]; read_trace;
    repeat split; auto.
Qed.

(** X6.  [transcribeRecording] sends one warning per failed status write
    and no other: the warnings carry, in order, the errors of the failed
    writes.  When the status store works, no warning is sent, even if the
    transcription fails. *)
Theorem warnings_are_failed_writes (w : World) (r : Recording) (h : Trace) :
  map n_more_details (notifications (run w (transcribeRecording r) h).2)
  = errors_of (status_write_outcomes (run w (transcribeRecording r) h).2).
Proof.
  destruct (blob r) as [b|] eqn:Hb.
  2:{ unfold transcribeRecording. rewrite Hb. reflexivity. }
  destruct (transcribeRecording_trace w r b h Hb)
    as (o1 & o2 & pre & sel & post & t0 & t1 & h1 & Htr & Hpre & Hpost & _
        & _ & _ & _ & Hsel).
  rewrite Htr.
  clear Htr.
  destruct Hsel as [[_ (c & _ & ->)]|[_ [_ ->]]]; read_trace;
    destruct o1, o2, (run w (transcribeRecording r) h).1; reflexivity.
Qed.

(** X7.  On a recording that has a blob, [transcribeRecording] writes to
    the status store exactly twice, whatever the store answers: first
    TRANSCRIBING, then a snapshot with the identifier and the blob of the
    recording whose status is DONE exactly when the result returned is a
    success and FAILED exactly when it is a failure. *)
Theorem two_status_writes (w : World) (r : Recording) (b : Blob) (h : Trace) :
  blob r = Some b ->
  exists x,
    status_writes (run w (transcribeRecording r) h).2
    = [with_status r TRANSCRIBING; x]
    /\ length (status_write_outcomes (run w (transcribeRecording r) h).2)
       = 2%nat
    /\ rec_id x = rec_id r /\ blob x = blob r
    /\ (transcriptionStatus x = DONE
        <-> isOk (run w (transcribeRecording r) h).1 = true)
    /\ (transcriptionStatus x = FAILED
        <-> isErr (run w (transcribeRecording r) h).1 = true).
Proof.
  intros Hb.
  exists (final_write r (run w (transcribeRecording r) h).1).
  split; [apply (transcribeRecording_status_writes w r b h Hb)|].
  split.
  - destruct (transcribeRecording_trace w r b h Hb)
      as (o1 & o2 & pre & sel & post & t0 & t1 & h1 & Htr & Hpre & Hpost & _
          & _ & _ & _ & Hsel).
    rewrite Htr.
    destruct Hsel as [[_ (c & _ & ->)]|[_ [_ ->]]]; read_trace; reflexivity.
  - destruct (run w (transcribeRecording r) h).1; simpl;
      repeat split; auto; discriminate.
Qed.

Lemma two_status_writes_witness :
  let w := stub_world "Groq" answer_by_size true false in
  blob recording_r2 = Some (wav 2)
  /\ exists x,
       status_writes (run w (transcribeRecording recording_r2) []).2
       = [with_status recording_r2 TRANSCRIBING; x]
       /\ length (status_write_outcomes
                    (run w (transcribeRecording recording_r2) []).2) = 2%nat
       /\ rec_id x = rec_id recording_r2 /\ blob x = blob recording_r2
       /\ (transcriptionStatus x = DONE
           <-> isOk (run w (transcribeRecording recording_r2) []).1 = true)
       /\ (transcriptionStatus x = FAILED
           <-> isErr (run w (transcribeRecording recording_r2) []).1 = true).
Proof.
  intros w.
  assert (Hb : blob recording_r2 = Some (wav 2)) by reflexivity.
  split; [exact Hb|].
  exact (two_status_writes w recording_r2 (wav 2) [] Hb).
Defined.

Lemma notify_blind_bind {A B} (m : Prog A) (f : A -> Prog B) :
  notify_blind m -> (forall a, notify_blind (f a)) -> notify_blind (bind m f).
Proof.
  intros Hm Hf.
  induction m as [a|k IH|k IH|l k IH|e k IH|n k IH|r k IH|c k IH|k IH];
    simpl in *; auto.
  destruct Hm as [Hconst Hk]. split.
  - intros x y. by rewrite (Hconst x y).
  - intros x. apply IH, Hk.
Qed.

Lemma run_notify_blind {A} (w : World)
    (sink : Trace -> Notification -> Result unit SinkError) (p : Prog A) :
  notify_blind p -> forall h, run (with_notify w sink) p h = run w p h.
Proof.
  induction p as [a|k IH|k IH|l k IH|e k IH|n k IH|r k IH|c k IH|k IH];
    simpl; intros Hp h; auto.
  - by rewrite IH.
  - by rewrite IH.
  - by rewrite IH.
  - by rewrite IH.
  - destruct Hp as [Hconst Hk].
    rewrite (Hconst (sink h n) (notify_outcome w h n)). by rewrite IH.
  - by rewrite IH.
  - by rewrite IH.
Qed.

Lemma notify_blind_warnOnError (o : Result unit DbError)
    (warning : DbError -> Notification) : notify_blind (warnOnError o warning).
Proof. destruct o; simpl; auto. Qed.

Lemma notify_blind_transcribeBlob (b : Blob) : notify_blind (transcribeBlob b).
Proof.
  unfold transcribeBlob; simpl. intros s t0 _.
  apply notify_blind_bind.
  - apply notify_blind_bind; [|intros a; exact I].
    destruct (selectAndTranscribe_cases s b) as [[_ (c & _ & ->)]|[_ ->]];
      simpl; auto.
  - intros [text|err]; simpl; auto.
Qed.

(** X8.  [transcribeRecording] never looks at the outcome of a warning: its
    result and everything it does are the same whatever the notification
    sink answers. *)
Theorem notification_outcome_ignored (w : World)
    (sink : Trace -> Notification -> Result unit SinkError)
    (r : Recording) (h : Trace) :
  run (with_notify w sink) (transcribeRecording r) h
  = run w (transcribeRecording r) h.
Proof.
  apply run_notify_blind.
  unfold transcribeRecording. destruct (blob r) as [b|]; [|exact I].
  apply notify_blind_bind; [simpl; auto|]. intros o1.
  apply notify_blind_bind; [apply notify_blind_warnOnError|]. intros _.
  apply notify_blind_bind.
  { apply notify_blind_bind; [apply notify_blind_transcribeBlob|].
    intros a; exact I. }
  intros [text|err];
    (apply notify_blind_bind; [simpl; auto|]); intros o2;
    (apply notify_blind_bind; [apply notify_blind_warnOnError|]); intros _;
    exact I.
Qed.

(** ** More on batches of programs *)

Lemma count_events_app (P : AnalyticsEvent -> bool) (t1 t2 : Trace) :
  count_events P (t1 ++ t2) = (count_events P t1 + count_events P t2)%nat.
Proof.
  unfold count_events.
  by rewrite analytics_events_app, List.filter_app, length_app.
Qed.

Lemma sum_list_insert (l : list nat) (i x y : nat) :
  l !! i = Some x ->
  (sum_list (<[i:=y]> l) + x = sum_list l + y)%nat.
Proof.
  revert i; induction l as [|a l IH]; intros [|i] Hi; simplify_eq/=.
  - lia.
  - specialize (IH i Hi). lia.
Qed.

Section PoolTraces.
Context {A : Type} (w : World).
Implicit Types (p : Prog A) (t : Thread A) (pool : list (Thread A))
  (h : Trace) (schedule : list nat).
Local Open Scope nat_scope.

Lemma promise_all_nil schedule h :
  promise_all w schedule ([] : list (Prog A)) h = ([], []).
Proof.
  unfold promise_all; simpl.
  assert (Hdrive : forall h', drive w schedule ([] : list (Thread A)) h'
                              = ([], [])).
  { induction schedule as [|i schedule IH]; intros h'; simpl; [reflexivity|].
    apply IH. }
  rewrite Hdrive. reflexivity.
Qed.

(** *** Events of a given kind only *)

Variable E : Event -> Prop.

Lemma run_sync_emits_only p h :
  emits_only E p ->
  Forall E (run_sync w p h).2 /\ thread_emits_only E (run_sync w p h).1.
Proof.
  revert h;
    induction p as [a|k IH|k IH|l k IH|e k IH|n k IH|r k IH|c k IH|k IH];
    intros h Hp; simpl in *.
  - split; [constructor|exact I].
  - destruct (Hp (settings_value w h)) as [He Hk].
    destruct (IH _ (h ++ [EvSettings (settings_value w h)]) Hk).
    split; [by constructor|done].
  - destruct (Hp (date_now w h)) as [He Hk].
    destruct (IH _ (h ++ [EvNow (date_now w h)]) Hk).
    split; [by constructor|done].
  - destruct Hp as [He Hk]. destruct (IH (h ++ [EvConsole l]) Hk).
    split; [by constructor|done].
  - destruct Hp as [He Hk].
    destruct (IH _ (h ++ [EvLogEvent e]) (Hk (logEvent_outcome w h e))).
    split; [by constructor|done].
  - destruct Hp as [He Hk].
    destruct (IH _ (h ++ [EvNotify n]) (Hk (notify_outcome w h n))).
    split; [by constructor|done].
  - destruct Hp as [He Hk]. split; [by repeat constructor|exact Hk].
  - destruct Hp as [He Hk]. split; [by repeat constructor|exact Hk].
  - split; [constructor|exact Hp].
Qed.

Lemma run_emits_only p h : emits_only E p -> Forall E (run w p h).2.
Proof.
  revert h;
    induction p as [a|k IH|k IH|l k IH|e k IH|n k IH|r k IH|c k IH|k IH];
    intros h Hp; simpl in *.
  - constructor.
  - destruct (Hp (settings_value w h)) as [He Hk]. constructor; auto.
  - destruct (Hp (date_now w h)) as [He Hk]. constructor; auto.
  - destruct Hp as [He Hk]. constructor; auto.
  - destruct Hp as [He Hk]. constructor; auto.
  - destruct Hp as [He Hk]. constructor; auto.
  - destruct Hp as [He Hk].
    destruct (Hk (updateRecording_outcome w (h ++ [EvUpdateCall r]) r)).
    repeat constructor; auto.
  - destruct Hp as [He Hk].
    destruct (Hk (transcribe_outcome w (h ++ [EvTranscribeCall c]) c)).
    repeat constructor; auto.
  - auto.
Qed.

Lemma resume_emits_only t h :
  thread_emits_only E t ->
  Forall E (resume w t h).2 /\ thread_emits_only E (resume w t h).1.
Proof.
  destruct t as [a|k|r k|c k]; simpl; intros Ht.
  - split; [constructor|exact I].
  - by apply run_sync_emits_only.
  - destruct (Ht (updateRecording_outcome w h r)) as [He Hk].
    destruct (run_sync_emits_only _ (h ++ [EvUpdateRet r
                (updateRecording_outcome w h r)]) Hk).
    split; [by constructor|done].
  - destruct (Ht (transcribe_outcome w h c)) as [He Hk].
    destruct (run_sync_emits_only _ (h ++ [EvTranscribeRet c
                (transcribe_outcome w h c)]) Hk).
    split; [by constructor|done].
Qed.

Lemma finish_emits_only t h :
  thread_emits_only E t -> Forall E (finish w t h).2.
Proof.
  destruct t as [a|k|r k|c k]; simpl; intros Ht.
  - constructor.
  - by apply run_emits_only.
  - destruct (Ht (updateRecording_outcome w h r)) as [He Hk].
    constructor; [done|by apply run_emits_only].
  - destruct (Ht (transcribe_outcome w h c)) as [He Hk].
    constructor; [done|by apply run_emits_only].
Qed.

Lemma spawn_all_emits_only (ps : list (Prog A)) h :
  Forall (emits_only E) ps ->
  Forall E (spawn_all w ps h).2
  /\ Forall (thread_emits_only E) (spawn_all w ps h).1.
Proof.
  intros Hps; revert h; induction Hps as [|p ps Hp _ IH]; intros h; simpl.
  - split; constructor.
  - destruct (run_sync_emits_only p h Hp) as [E1 T1].
    destruct (IH (h ++ (run_sync w p h).2)) as [E2 T2].
    split; [by apply Forall_app|by constructor].
Qed.

Lemma drive_emits_only schedule pool h :
  Forall (thread_emits_only E) pool ->
  Forall E (drive w schedule pool h).2
  /\ Forall (thread_emits_only E) (drive w schedule pool h).1.
Proof.
  revert pool h; induction schedule as [|i schedule IH]; intros pool h Hpool;
    simpl; [by split|].
  destruct (pool !! i) as [t|] eqn:Hi; [|by apply IH].
  destruct (resume_emits_only t h (Forall_lookup_1 _ _ _ _ Hpool Hi))
    as [E1 T1].
  destruct (IH (<[i:=(resume w t h).1]> pool) (h ++ (resume w t h).2)
               (Forall_insert _ _ _ _ Hpool T1)) as [E2 T2].
  simpl. split; [by apply Forall_app|done].
Qed.

Lemma join_all_emits_only pool h :
  Forall (thread_emits_only E) pool -> Forall E (join_all w pool h).2.
Proof.
  intros Hpool; revert h; induction Hpool as [|t pool Ht _ IH]; intros h;
    simpl; [constructor|].
  apply Forall_app. split; [by apply finish_emits_only|apply IH].
Qed.

(** A batch of programs causes only the events its programs can cause,
    whatever the schedule. *)
Lemma promise_all_emits_only schedule (ps : list (Prog A)) h :
  Forall (emits_only E) ps -> Forall E (promise_all w schedule ps h).2.
Proof.
  intros Hps. unfold promise_all; simpl.
  destruct (spawn_all_emits_only ps h Hps) as [E1 T1].
  destruct (drive_emits_only schedule _ (h ++ (spawn_all w ps h).2) T1)
    as [E2 T2].
  rewrite !Forall_app. repeat split; auto.
  by apply join_all_emits_only.
Qed.

(** *** Adapter calls come first *)

Lemma run_sync_no_return p h : adapter_returns (run_sync w p h).2 = [].
Proof.
  revert h;
    induction p as [a|k IH|k IH|l k IH|e k IH|n k IH|r k IH|c k IH|k IH];
    intros h; simpl; auto.
Qed.

Lemma spawn_all_no_return (ps : list (Prog A)) h :
  adapter_returns (spawn_all w ps h).2 = [].
Proof.
  revert h; induction ps as [|p ps IH]; intros h; simpl; [reflexivity|].
  by rewrite adapter_returns_app, run_sync_no_return, IH.
Qed.

Lemma run_sync_no_transcribe p h :
  no_transcribe p ->
  adapter_calls (run_sync w p h).2 = []
  /\ thread_no_transcribe (run_sync w p h).1.
Proof.
  revert h;
    induction p as [a|k IH|k IH|l k IH|e k IH|n k IH|r k IH|c k IH|k IH];
    intros h Hp; simpl in *; auto.
  destruct Hp.
Qed.

Lemma run_no_transcribe p h :
  no_transcribe p -> adapter_calls (run w p h).2 = [].
Proof.
  revert h;
    induction p as [a|k IH|k IH|l k IH|e k IH|n k IH|r k IH|c k IH|k IH];
    intros h Hp; simpl in *; auto.
  destruct Hp.
Qed.

Lemma run_sync_calls_first p h :
  calls_first p -> thread_no_transcribe (run_sync w p h).1.
Proof.
  revert h;
    induction p as [a|k IH|k IH|l k IH|e k IH|n k IH|r k IH|c k IH|k IH];
    intros h Hp; simpl in *; auto.
Qed.

Lemma resume_no_transcribe t h :
  thread_no_transcribe t ->
  adapter_calls (resume w t h).2 = []
  /\ thread_no_transcribe (resume w t h).1.
Proof.
  destruct t as [a|k|r k|c k]; simpl; intros Ht; auto;
    by apply run_sync_no_transcribe.
Qed.

Lemma finish_no_transcribe t h :
  thread_no_transcribe t -> adapter_calls (finish w t h).2 = [].
Proof.
  destruct t as [a|k|r k|c k]; simpl; intros Ht; auto;
    by apply run_no_transcribe.
Qed.

Lemma spawn_all_calls_first (ps : list (Prog A)) h :
  Forall calls_first ps ->
  Forall thread_no_transcribe (spawn_all w ps h).1.
Proof.
  intros Hps; revert h; induction Hps as [|p ps Hp _ IH]; intros h; simpl;
    constructor; [by apply run_sync_calls_first|apply IH].
Qed.

Lemma drive_no_transcribe schedule pool h :
  Forall thread_no_transcribe pool ->
  adapter_calls (drive w schedule pool h).2 = []
  /\ Forall thread_no_transcribe (drive w schedule pool h).1.
Proof.
  revert pool h; induction schedule as [|i schedule IH]; intros pool h Hpool;
    simpl; [by split|].
  destruct (pool !! i) as [t|] eqn:Hi; [|by apply IH].
  destruct (resume_no_transcribe t h (Forall_lookup_1 _ _ _ _ Hpool Hi))
    as [E1 T1].
  destruct (IH (<[i:=(resume w t h).1]> pool) (h ++ (resume w t h).2)
               (Forall_insert _ _ _ _ Hpool T1)) as [E2 T2].
  simpl. rewrite adapter_calls_app, E1, E2. by split.
Qed.

Lemma join_all_no_transcribe pool h :
  Forall thread_no_transcribe pool ->
  adapter_calls (join_all w pool h).2 = [].
Proof.
  intros Hpool; revert h; induction Hpool as [|t pool Ht _ IH]; intros h;
    simpl; [reflexivity|].
  by rewrite adapter_calls_app, (finish_no_transcribe t h Ht), IH.
Qed.

(** In a batch of programs that call adapters only before their first
    suspension, every call is made before any answer arrives. *)
Lemma promise_all_calls_first schedule (ps : list (Prog A)) h :
  Forall calls_first ps ->
  exists started rest,
    (promise_all w schedule ps h).2 = started ++ rest
    /\ adapter_returns started = []
    /\ adapter_calls rest = [].
Proof.
  intros Hps. unfold promise_all; simpl.
  eexists _, _. split; [reflexivity|].
  split; [apply spawn_all_no_return|].
  pose proof (spawn_all_calls_first ps h Hps) as T1.
  destruct (drive_no_transcribe schedule _ (h ++ (spawn_all w ps h).2) T1)
    as [E2 T2].
  by rewrite adapter_calls_app, E2, (join_all_no_transcribe _ _ T2).
Qed.

(** *** Counting analytics events *)

Variable P : AnalyticsEvent -> bool.

Lemma run_sync_logs n p h :
  logs P n p ->
  exists n', thread_logs P n' (run_sync w p h).1
             /\ count_events P (run_sync w p h).2 + n' = n.
Proof.
  revert n h;
    induction p as [a|k IH|k IH|l k IH|e k IH|nt k IH|r k IH|c k IH|k IH];
    intros n h Hp; simpl in *; eauto.
  unfold count_events; simpl. destruct (P e).
  - destruct Hp as (n' & -> & Hk).
    destruct (IH _ n' (h ++ [EvLogEvent e]) (Hk (logEvent_outcome w h e)))
      as (n'' & Ht & Hn).
    exists n''. split; [exact Ht|]. unfold count_events in Hn. simpl. lia.
  - apply (IH _ n (h ++ [EvLogEvent e]) (Hp (logEvent_outcome w h e))).
Qed.

Lemma run_logs n p h : logs P n p -> count_events P (run w p h).2 = n.
Proof.
  revert n h;
    induction p as [a|k IH|k IH|l k IH|e k IH|nt k IH|r k IH|c k IH|k IH];
    intros n h Hp; simpl in *; unfold count_events in *; simpl;
    try (destruct (P e);
         [destruct Hp as (n' & -> & Hk); simpl; f_equal; apply IH, Hk|]);
    try congruence; eauto.
Qed.

Lemma resume_logs n t h :
  thread_logs P n t ->
  exists n', thread_logs P n' (resume w t h).1
             /\ count_events P (resume w t h).2 + n' = n.
Proof.
  destruct t as [a|k|r k|c k]; simpl; intros Ht.
  - exists n. split; [exact Ht|reflexivity].
  - by apply run_sync_logs.
  - destruct (run_sync_logs n _ (h ++ [EvUpdateRet r
                (updateRecording_outcome w h r)])
                (Ht (updateRecording_outcome w h r))) as (n' & Hn' & Hn).
    exists n'. split; [exact Hn'|exact Hn].
  - destruct (run_sync_logs n _ (h ++ [EvTranscribeRet c
                (transcribe_outcome w h c)])
                (Ht (transcribe_outcome w h c))) as (n' & Hn' & Hn).
    exists n'. split; [exact Hn'|exact Hn].
Qed.

Lemma finish_logs n t h :
  thread_logs P n t -> count_events P (finish w t h).2 = n.
Proof.
  destruct t as [a|k|r k|c k]; simpl; intros Ht.
  - by subst.
  - by apply run_logs.
  - apply (run_logs n _ (h ++ [EvUpdateRet r (updateRecording_outcome w h r)])
             (Ht _)).
  - apply (run_logs n _ (h ++ [EvTranscribeRet c (transcribe_outcome w h c)])
             (Ht _)).
Qed.

Lemma spawn_all_logs (ns : list nat) (ps : list (Prog A)) h :
  Forall2 (logs P) ns ps ->
  exists ns',
    Forall2 (thread_logs P) ns' (spawn_all w ps h).1
    /\ count_events P (spawn_all w ps h).2 + sum_list ns' = sum_list ns.
Proof.
  intros Hps; revert h; induction Hps as [|n p ns ps Hp _ IH]; intros h;
    simpl.
  - exists []. split; [constructor|reflexivity].
  - destruct (run_sync_logs n p h Hp) as (n' & Ht & Hn).
    destruct (IH (h ++ (run_sync w p h).2)) as (ns' & Hts & Hns).
    exists (n' :: ns'). split; [by constructor|].
    rewrite count_events_app. simpl. lia.
Qed.

Lemma drive_logs (ns : list nat) schedule pool h :
  Forall2 (thread_logs P) ns pool ->
  exists ns',
    Forall2 (thread_logs P) ns' (drive w schedule pool h).1
    /\ count_events P (drive w schedule pool h).2 + sum_list ns'
       = sum_list ns.
Proof.
  revert ns pool h; induction schedule as [|i schedule IH];
    intros ns pool h Hpool; simpl.
  - exists ns. split; [exact Hpool|reflexivity].
  - destruct (pool !! i) as [t|] eqn:Hi; [|by apply IH].
    destruct (Forall2_lookup_r _ _ _ _ _ Hpool Hi) as (n & Hn & Ht).
    destruct (resume_logs n t h Ht) as (n' & Ht' & Hcount).
    destruct (IH (<[i:=n']> ns) (<[i:=(resume w t h).1]> pool)
                 (h ++ (resume w t h).2)) as (ns' & Hts & Hns).
    { by apply Forall2_insert. }
    exists ns'. split; [exact Hts|]. simpl.
    rewrite count_events_app.
    pose proof (sum_list_insert ns i n n' Hn). lia.
Qed.

Lemma join_all_logs (ns : list nat) pool h :
  Forall2 (thread_logs P) ns pool ->
  count_events P (join_all w pool h).2 = sum_list ns.
Proof.
  intros Hpool; revert h; induction Hpool as [|n t ns pool Ht _ IH];
    intros h; simpl; [reflexivity|].
  by rewrite count_events_app, (finish_logs n t h Ht), IH.
Qed.

(** A batch of programs sends as many analytics events as its programs do,
    whatever the schedule. *)
Lemma promise_all_logs (ns : list nat) schedule (ps : list (Prog A)) h :
  Forall2 (logs P) ns ps ->
  count_events P (promise_all w schedule ps h).2 = sum_list ns.
Proof.
  intros Hps. unfold promise_all; simpl.
  destruct (spawn_all_logs ns ps h Hps) as (ns1 & T1 & E1).
  destruct (drive_logs ns1 schedule _ (h ++ (spawn_all w ps h).2) T1)
    as (ns2 & T2 & E2).
  rewrite !count_events_app, (join_all_logs ns2 _ _ T2). lia.
Qed.
End PoolTraces.

Section PoolSink.
Context {A : Type} (w : World)
  (sink : Trace -> AnalyticsEvent -> Result unit SinkError).
Implicit Types (p : Prog A) (t : Thread A) (pool : list (Thread A))
  (h : Trace) (schedule : list nat).

Lemma run_sync_sink_blind p h :
  sink_blind p ->
  run_sync (with_logEvent w sink) p h = run_sync w p h
  /\ thread_sink_blind (run_sync w p h).1.
Proof.
  revert h;
    induction p as [a|k IH|k IH|l k IH|e k IH|n k IH|r k IH|c k IH|k IH];
    intros h Hp; simpl in *; auto.
  - destruct (IH (settings_value w h)
                (h ++ [EvSettings (settings_value w h)]) (Hp _)) as [-> ?].
    by split.
  - destruct (IH (date_now w h) (h ++ [EvNow (date_now w h)]) (Hp _))
      as [-> ?].
    by split.
  - destruct (IH (h ++ [EvConsole l]) Hp) as [-> ?]. by split.
  - destruct Hp as [Hconst Hk].
    rewrite (Hconst (sink h e) (logEvent_outcome w h e)).
    destruct (IH (logEvent_outcome w h e) (h ++ [EvLogEvent e]) (Hk _))
      as [-> ?].
    by split.
  - destruct (IH (notify_outcome w h n) (h ++ [EvNotify n]) (Hp _))
      as [-> ?].
    by split.
Qed.

Lemma resume_sink_blind t h :
  thread_sink_blind t ->
  resume (with_logEvent w sink) t h = resume w t h
  /\ thread_sink_blind (resume w t h).1.
Proof.
  destruct t as [a|k|r k|c k]; simpl; intros Ht; auto.
  - by apply run_sync_sink_blind.
  - destruct (run_sync_sink_blind _
                (h ++ [EvUpdateRet r (updateRecording_outcome w h r)])
                (Ht (updateRecording_outcome w h r))) as [-> ?].
    by split.
  - destruct (run_sync_sink_blind _
                (h ++ [EvTranscribeRet c (transcribe_outcome w h c)])
                (Ht (transcribe_outcome w h c))) as [-> ?].
    by split.
Qed.

Lemma finish_sink_blind t h :
  thread_sink_blind t -> finish (with_logEvent w sink) t h = finish w t h.
Proof.
  destruct t as [a|k|r k|c k]; simpl; intros Ht; auto.
  - by apply run_sink_blind.
  - by rewrite run_sink_blind.
  - by rewrite run_sink_blind.
Qed.

Lemma spawn_all_sink_blind (ps : list (Prog A)) h :
  Forall sink_blind ps ->
  spawn_all (with_logEvent w sink) ps h = spawn_all w ps h
  /\ Forall thread_sink_blind (spawn_all w ps h).1.
Proof.
  intros Hps; revert h; induction Hps as [|p ps Hp _ IH]; intros h; simpl.
  - by split.
  - destruct (run_sync_sink_blind p h Hp) as [-> T1].
    destruct (IH (h ++ (run_sync w p h).2)) as [-> T2].
    split; [reflexivity|by constructor].
Qed.

Lemma drive_sink_blind schedule pool h :
  Forall thread_sink_blind pool ->
  drive (with_logEvent w sink) schedule pool h = drive w schedule pool h
  /\ Forall thread_sink_blind (drive w schedule pool h).1.
Proof.
  revert pool h; induction schedule as [|i schedule IH]; intros pool h Hpool;
    simpl; [by split|].
  destruct (pool !! i) as [t|] eqn:Hi; [|by apply IH].
  destruct (resume_sink_blind t h (Forall_lookup_1 _ _ _ _ Hpool Hi))
    as [-> T1].
  destruct (IH (<[i:=(resume w t h).1]> pool) (h ++ (resume w t h).2)
               (Forall_insert _ _ _ _ Hpool T1)) as [-> T2].
  by split.
Qed.

Lemma join_all_sink_blind pool h :
  Forall thread_sink_blind pool ->
  join_all (with_logEvent w sink) pool h = join_all w pool h.
Proof.
  intros Hpool; revert h; induction Hpool as [|t pool Ht _ IH]; intros h;
    simpl; [reflexivity|].
  by rewrite (finish_sink_blind t h Ht), IH.
Qed.

(** A batch of programs that drop the outcome of every emission runs the
    same whatever the analytics sink answers. *)
Lemma promise_all_sink_blind schedule (ps : list (Prog A)) h :
  Forall sink_blind ps ->
  promise_all (with_logEvent w sink) schedule ps h
  = promise_all w schedule ps h.
Proof.
  intros Hps. unfold promise_all.
  destruct (spawn_all_sink_blind ps h Hps) as [-> T1].
  destruct (drive_sink_blind schedule _ (h ++ (spawn_all w ps h).2) T1)
    as [-> T2].
  by rewrite (join_all_sink_blind _ _ T2).
Qed.
End PoolSink.

(** ** More on the batch path *)

Lemma emits_only_bind {A B} (E : Event -> Prop) (m : Prog A)
    (f : A -> Prog B) :
  emits_only E m -> (forall a, emits_only E (f a)) -> emits_only E (bind m f).
Proof.
  intros Hm Hf.
  induction m as [a|k IH|k IH|l k IH|e k IH|n k IH|r k IH|c k IH|k IH];
    simpl in *; auto.
  - intros s. destruct (Hm s). auto.
  - intros t. destruct (Hm t). auto.
  - destruct Hm. auto.
  - destruct Hm. auto.
  - destruct Hm. auto.
  - destruct Hm as [He Hk]. split; [exact He|]. intros x.
    destruct (Hk x). auto.
  - destruct Hm as [He Hk]. split; [exact He|]. intros x.
    destruct (Hk x). auto.
Qed.

Lemma no_transcribe_bind {A B} (m : Prog A) (f : A -> Prog B) :
  no_transcribe m -> (forall a, no_transcribe (f a)) ->
  no_transcribe (bind m f).
Proof.
  intros Hm Hf.
  induction m as [a|k IH|k IH|l k IH|e k IH|n k IH|r k IH|c k IH|k IH];
    simpl in *; auto.
Qed.

Lemma no_transcribe_calls_first {A} (p : Prog A) :
  no_transcribe p -> calls_first p.
Proof.
  induction p as [a|k IH|k IH|l k IH|e k IH|n k IH|r k IH|c k IH|k IH];
    simpl in *; auto.
  intros [].
Qed.

Lemma calls_first_bind {A B} (m : Prog A) (f : A -> Prog B) :
  calls_first m -> (forall a, no_transcribe (f a)) -> calls_first (bind m f).
Proof.
  intros Hm Hf.
  induction m as [a|k IH|k IH|l k IH|e k IH|n k IH|r k IH|c k IH|k IH];
    simpl in *; auto using no_transcribe_calls_first, no_transcribe_bind.
Qed.

Lemma logs_bind {A B} (P : AnalyticsEvent -> bool) (n n' : nat)
    (m : Prog A) (f : A -> Prog B) :
  logs P n m -> (forall a, logs P n' (f a)) -> logs P (n + n') (bind m f).
Proof.
  intros Hm Hf. revert n Hm.
  induction m as [a|k IH|k IH|l k IH|e k IH|nt k IH|r k IH|c k IH|k IH];
    intros n Hm; simpl in *; auto.
  - subst. apply Hf.
  - destruct (P e).
    + destruct Hm as (n0 & -> & Hk). exists (n0 + n')%nat. split; auto.
    + auto.
Qed.

Lemma emits_only_transcribeItem (recordings : list Recording)
    (r : Recording) :
  In r recordings -> emits_only (batch_event recordings) (transcribeItem r).
Proof.
  intros Hin. unfold transcribeItem.
  destruct (blob r) as [b|] eqn:Hb; [|exact I].
  apply emits_only_bind; [|intros a; exact I].
  unfold transcribeBlob; simpl. intros s. split; [exact I|].
  intros t0. split; [exact I|]. split; [exact I|]. split; [exact I|].
  intros _. apply emits_only_bind.
  - apply emits_only_bind; [|intros a; exact I].
    destruct (selectAndTranscribe_cases s b) as [[_ (c & Hc & ->)]|[_ ->]];
      simpl; [|exact I].
    assert (Hev : exists r', In r' recordings /\ blob r' = Some (call_blob c))
      by (exists r; by rewrite Hc).
    split; [exact Hev|]. intros x. split; [exact Hev|exact I].
  - intros [text|err]; simpl; intros t1; repeat split.
Qed.

Lemma calls_first_transcribeItem (r : Recording) :
  calls_first (transcribeItem r).
Proof.
  unfold transcribeItem. destruct (blob r) as [b|]; [|exact I].
  apply calls_first_bind; [|intros a; exact I].
  unfold transcribeBlob; simpl. intros s t0 _.
  apply calls_first_bind.
  - apply calls_first_bind; [|intros a; exact I].
    destruct (selectAndTranscribe_cases s b) as [[_ (c & _ & ->)]|[_ ->]];
      simpl; auto.
  - intros [text|err]; simpl; auto.
Qed.

Lemma logs_requested_transcribeItem (r : Recording) :
  logs is_requested (has_blob r) (transcribeItem r).
Proof.
  unfold transcribeItem, has_blob. destruct (blob r) as [b|]; [|reflexivity].
  change 1%nat with (1 + 0)%nat. apply logs_bind; [|intros a; reflexivity].
  unfold transcribeBlob; simpl. intros s t0. exists 0%nat.
  split; [reflexivity|]. intros _.
  change 0%nat with (0 + 0)%nat. apply logs_bind.
  - change 0%nat with (0 + 0)%nat at 1.
    apply logs_bind; [|intros a; reflexivity].
    destruct (selectAndTranscribe_cases s b) as [[_ (c & _ & ->)]|[_ ->]];
      simpl; auto.
  - intros [text|err]; simpl; auto.
Qed.

Lemma logs_terminal_transcribeItem (r : Recording) :
  logs is_terminal (has_blob r) (transcribeItem r).
Proof.
  unfold transcribeItem, has_blob. destruct (blob r) as [b|]; [|reflexivity].
  change 1%nat with (1 + 0)%nat. apply logs_bind; [|intros a; reflexivity].
  unfold transcribeBlob; simpl. intros s t0 _.
  change 1%nat with (0 + 1)%nat. apply logs_bind.
  - change 0%nat with (0 + 0)%nat.
    apply logs_bind; [|intros a; reflexivity].
    destruct (selectAndTranscribe_cases s b) as [[_ (c & _ & ->)]|[_ ->]];
      simpl; auto.
  - intros [text|err]; simpl; intros t1; exists 0%nat; auto.
Qed.

(** X9.  On an empty list, [transcribeRecordings] returns [Ok] with no
    success and no failure, without calling any collaborator, whatever the
    schedule. *)
Theorem batch_of_nothing (w : World) (schedule : list nat) (h : Trace) :
  transcribeRecordings w schedule [] h
  = (Ok {| oks := []; errs := [] |}, []).
Proof.
  unfold transcribeRecordings. cbn [map]. by rewrite promise_all_nil.
Qed.

(** X10.  [transcribeRecordings] starts every adapter call before it takes
    any answer: its trace splits into a first part with all the adapter
    calls and no answer, and a second part with no adapter call, whatever
    the schedule. *)
Theorem batch_calls_before_answers (w : World) (schedule : list nat)
    (recordings : list Recording) (h : Trace) :
  exists started rest,
    (transcribeRecordings w schedule recordings h).2 = started ++ rest
    /\ adapter_returns started = []
    /\ adapter_calls rest = []
    /\ adapter_calls (transcribeRecordings w schedule recordings h).2
       = adapter_calls started.
Proof.
  unfold transcribeRecordings; cbn [fst snd].
  destruct (promise_all_calls_first w schedule
              (map transcribeItem recordings) h)
    as (started & rest & Htr & Hret & Hcall).
  { induction recordings as [|r recordings IH]; simpl; constructor;
      [apply calls_first_transcribeItem|exact IH]. }
  exists started, rest. repeat split; auto.
  by rewrite Htr, adapter_calls_app, Hcall, app_nil_r.
Qed.

(** X11.  [transcribeRecordings] sends to the analytics sink exactly one
    event [requested] and exactly one terminal event per recording that has
    a blob, and none for a recording without a blob, whatever the schedule
    and whatever the adapters answer. *)
Theorem batch_analytics_per_blob (w : World) (schedule : list nat)
    (recordings : list Recording) (h : Trace) :
  count_events is_requested (transcribeRecordings w schedule recordings h).2
  = sum_list (map has_blob recordings)
  /\ count_events is_terminal (transcribeRecordings w schedule recordings h).2
     = sum_list (map has_blob recordings).
Proof.
  unfold transcribeRecordings; cbn [fst snd]. split.
  - apply promise_all_logs.
    induction recordings as [|r recordings IH]; simpl; constructor;
      [apply logs_requested_transcribeItem|exact IH].
  - apply promise_all_logs.
    induction recordings as [|r recordings IH]; simpl; constructor;
      [apply logs_terminal_transcribeItem|exact IH].
Qed.

(** X12.  [transcribeRecordings] sends no warning to the notification
    sink, and calls adapters only on the audio of the recordings it was
    given, whatever the schedule. *)
Theorem batch_touches_only_its_audio (w : World) (schedule : list nat)
    (recordings : list Recording) (h : Trace) :
  notifications (transcribeRecordings w schedule recordings h).2 = []
  /\ Forall (fun c => exists r, In r recordings /\ blob r = Some (call_blob c))
       (adapter_calls (transcribeRecordings w schedule recordings h).2).
Proof.
  assert (HE : Forall (batch_event recordings)
                 (transcribeRecordings w schedule recordings h).2).
  { unfold transcribeRecordings; cbn [fst snd]. apply promise_all_emits_only.
    apply Forall_forall. intros p Hp.
    apply list_elem_of_In, in_map_iff in Hp. destruct Hp as (r & <- & Hr).
    by apply emits_only_transcribeItem. }
  induction HE as [|ev tr Hev _ [IH1 IH2]]; [split; constructor|].
  destruct ev; simpl in *; try contradiction; auto.
Qed.

(** X13.  [transcribeRecordings] never looks at the outcome of an emission
    to the analytics sink: its outcome and everything it does are the same
    whatever the sink answers, for every schedule. *)
Theorem batch_analytics_outcome_ignored (w : World)
    (sink : Trace -> AnalyticsEvent -> Result unit SinkError)
    (schedule : list nat) (recordings : list Recording) (h : Trace) :
  transcribeRecordings (with_logEvent w sink) schedule recordings h
  = transcribeRecordings w schedule recordings h.
Proof.
  unfold transcribeRecordings. rewrite promise_all_sink_blind; [reflexivity|].
  induction recordings as [|r recordings IH]; simpl; constructor; [|exact IH].
  unfold transcribeItem. destruct (blob r) as [b|]; [|exact I].
  apply sink_blind_await, sink_blind_transcribeBlob.
Qed.


(** ** The arguments of the development script *)

Lemma filter_from_skip_features (args done l : list string) :
  args = done ++ l ->
  filter_from (keepArg args) (length done) l
  = skip_features
      (match last done with
       | Some previous => String.eqb previous "--features"
       | None => false
       end) l.
Proof.
  revert done; induction l as [|a l IH]; intros done Hargs; [reflexivity|].
  simpl.
  assert (Hkeep : keepArg args a (length done)
                  = negb (String.eqb a "--features"
                          || match last done with
                             | Some previous => String.eqb previous "--features"
                             | None => false
                             end)).
  { unfold keepArg. destruct (String.eqb a "--features"); [reflexivity|].
    simpl. destruct done as [|d done] using rev_ind; [reflexivity|].
    rewrite length_app, last_snoc; simpl.
    replace (length done + 1)%nat with (S (length done)) by lia.
    rewrite Hargs, <- app_assoc, lookup_app_r by lia.
    replace (length done - length done)%nat with 0%nat by lia. simpl.
    by destruct (String.eqb d "--features"). }
  rewrite Hkeep.
  specialize (IH (done ++ [a])).
  rewrite length_app, last_snoc in IH; simpl in IH.
  replace (length done + 1)%nat with (S (length done)) in IH by lia.
  rewrite IH by (by rewrite Hargs, <- app_assoc).
  by destruct (String.eqb a "--features" || _).
Qed.

(** [filteredArgs] read from left to right. *)
Lemma filteredArgs_skip_features (args : list string) :
  filteredArgs args = skip_features false args.
Proof. apply (filter_from_skip_features args [] args). reflexivity. Qed.

Lemma skip_features_app_no_flag (after_flag : bool) (pre l : list string) :
  includes "--features" pre = false ->
  skip_features after_flag (pre ++ l)
  = skip_features after_flag pre
    ++ skip_features
         (match pre with [] => after_flag | _ => false end) l.
Proof.
  revert after_flag; induction pre as [|a pre IH]; intros after_flag Hpre;
    [reflexivity|].
  unfold includes in *; cbn [existsb] in Hpre.
  apply orb_false_elim in Hpre as [Ha Hpre].
  rewrite String.eqb_sym in Ha. simpl. rewrite Ha. simpl.
  rewrite (IH false Hpre). rewrite <- app_assoc. f_equal. f_equal.
  by destruct pre.
Qed.

Lemma skip_features_no_flag (l : list string) :
  includes "--features" l = false -> skip_features false l = l.
Proof.
  induction l as [|a l IH]; intros Hl; [reflexivity|].
  unfold includes in *; cbn [existsb] in Hl.
  apply orb_false_elim in Hl as [Ha Hl].
  rewrite String.eqb_sym in Ha. simpl. rewrite Ha. simpl. by rewrite IH.
Qed.

Lemma indexOf_none (x : string) (l : list string) :
  includes x l = false -> indexOf x l = None.
Proof.
  induction l as [|a l IH]; intros Hl; [reflexivity|].
  unfold includes in *; cbn [existsb] in Hl.
  apply orb_false_elim in Hl as [Ha Hl].
  rewrite String.eqb_sym in Ha. simpl. by rewrite Ha, IH.
Qed.

Lemma indexOf_first (x : string) (pre l : list string) :
  includes x pre = false -> indexOf x (pre ++ x :: l) = Some (length pre).
Proof.
  induction pre as [|a pre IH]; intros Hpre; simpl.
  - by rewrite String.eqb_refl.
  - unfold includes in *; cbn [existsb] in Hpre.
    apply orb_false_elim in Hpre as [Ha Hpre].
    rewrite String.eqb_sym in Ha. by rewrite Ha, IH.
Qed.

Lemma gpuFeature_pair (pre post : list string) (feature : string) :
  includes "--features" pre = false ->
  gpuFeature (pre ++ "--features" :: feature :: post) = Some feature.
Proof.
  intros Hpre. unfold gpuFeature. rewrite (indexOf_first _ _ _ Hpre).
  rewrite lookup_app_r by lia.
  replace (length pre + 1 - length pre)%nat with 1%nat by lia. reflexivity.
Qed.

(** X14.  Without [--features] among its arguments, the development script
    hands its arguments to [tauri dev] unchanged, and the GPU check
    passes on every platform. *)
Theorem tauriArgs_without_features (platform : string) (args : list string) :
  includes "--features" args = false ->
  tauriArgs args = args /\ checkGpuConfig platform args = true.
Proof.
  intros Hargs. unfold tauriArgs, checkGpuConfig, gpu, gpuFeature.
  rewrite (indexOf_none _ _ Hargs). simpl.
  by rewrite filteredArgs_skip_features, skip_features_no_flag.
Qed.

Lemma tauriArgs_without_features_witness :
  includes "--features" ["--release"; "--verbose"] = false
  /\ tauriArgs ["--release"; "--verbose"] = ["--release"; "--verbose"]
  /\ checkGpuConfig "linux" ["--release"; "--verbose"] = true.
Proof.
  assert (H : includes "--features" ["--release"; "--verbose"] = false)
    by reflexivity.
  split; [exact H|].
  exact (tauriArgs_without_features "linux" ["--release"; "--verbose"] H).
Defined.

(** X15.  With one [--features f] among its arguments, [f] being neither
    empty nor [--features], the development script moves the pair to the
    front and keeps the other arguments in their order; the configuration
    file of Metal comes first when [f] is "metal", and for no other
    feature. *)
Theorem tauriArgs_one_feature (pre post : list string) (feature : string) :
  includes "--features" pre = false ->
  includes "--features" post = false ->
  feature <> "--features" -> feature <> "" ->
  tauriArgs (pre ++ "--features" :: feature :: post)
  = (if String.eqb feature "metal"
     then ["-c"; "src-tauri/tauri.metal.conf.json"] else [])
    ++ ["--features"; feature] ++ pre ++ post.
Proof.
  intros Hpre Hpost Hflag Hempty.
  apply String.eqb_neq in Hflag, Hempty.
  unfold tauriArgs, gpu. rewrite (gpuFeature_pair _ _ _ Hpre).
  assert (Htruthy : truthy feature = true) by (unfold truthy; by rewrite Hempty).
  rewrite Htruthy.
  rewrite filteredArgs_skip_features.
  rewrite (skip_features_app_no_flag _ _ _ Hpre).
  rewrite (skip_features_no_flag _ Hpre).
  assert (Hrest : forall b, skip_features b ("--features" :: feature :: post)
                            = post).
  { intros b. cbn [skip_features]. rewrite String.eqb_refl, Hflag.
    cbn [orb app]. by apply skip_features_no_flag. }
  rewrite Hrest. f_equal.
  unfold gpuConfig.
  destruct (String.eqb feature "metal"); [reflexivity|].
  destruct (String.eqb feature "cuda"); [reflexivity|].
  destruct (String.eqb feature "vulkan"); [reflexivity|].
  destruct (String.eqb feature "hipblas"); reflexivity.
Qed.

Lemma tauriArgs_one_feature_witness :
  (includes "--features" ["--verbose"] = false
   /\ includes "--features" ["--release"] = false
   /\ "metal" <> "--features" /\ "metal" <> "")
  /\ tauriArgs (["--verbose"] ++ "--features" :: "metal" :: ["--release"])
     = ["-c"; "src-tauri/tauri.metal.conf.json"; "--features"; "metal";
        "--verbose"; "--release"].
Proof.
  assert (H1 : includes "--features" ["--verbose"] = false) by reflexivity.
  assert (H2 : includes "--features" ["--release"] = false) by reflexivity.
  assert (H3 : "metal" <> "--features") by discriminate.
  assert (H4 : "metal" <> "") by discriminate.
  split; [auto|].
  exact (tauriArgs_one_feature ["--verbose"] ["--release"] "metal"
           H1 H2 H3 H4).
Defined.

(** X16.  A [--features] that is the last argument of the development
    script, or that is followed by an empty argument, is dropped without a
    word: [tauri dev] receives the other arguments and no feature. *)
Theorem tauriArgs_dangling_features (pre post : list string) :
  includes "--features" pre = false ->
  includes "--features" post = false ->
  tauriArgs (pre ++ ["--features"]) = pre
  /\ tauriArgs (pre ++ "--features" :: "" :: post) = pre ++ post.
Proof.
  intros Hpre Hpost. split.
  - unfold tauriArgs, gpu, gpuFeature. rewrite (indexOf_first _ _ _ Hpre).
    rewrite lookup_ge_None_2 by (rewrite length_app; simpl; lia).
    cbn [app]. rewrite filteredArgs_skip_features.
    rewrite (skip_features_app_no_flag _ _ _ Hpre).
    rewrite (skip_features_no_flag _ Hpre). cbn [skip_features].
    rewrite String.eqb_refl. cbn [orb app]. by rewrite app_nil_r.
  - unfold tauriArgs, gpu. rewrite (gpuFeature_pair _ _ _ Hpre).
    cbn [truthy String.eqb negb app]. rewrite filteredArgs_skip_features.
    rewrite (skip_features_app_no_flag _ _ _ Hpre).
    rewrite (skip_features_no_flag _ Hpre). cbn [skip_features].
    rewrite String.eqb_refl. cbn [String.eqb orb app].
    by rewrite (skip_features_no_flag _ Hpost).
Qed.

Lemma tauriArgs_dangling_features_witness :
  (includes "--features" ["--release"] = false
   /\ includes "--features" ["--verbose"] = false)
  /\ tauriArgs (["--release"] ++ ["--features"]) = ["--release"]
  /\ tauriArgs (["--release"] ++ "--features" :: "" :: ["--verbose"])
     = ["--release"] ++ ["--verbose"].
Proof.
  assert (H1 : includes "--features" ["--release"] = false) by reflexivity.
  assert (H2 : includes "--features" ["--verbose"] = false) by reflexivity.
  split; [auto|].
  exact (tauriArgs_dangling_features ["--release"] ["--verbose"] H1 H2).
Defined.

Lemma skip_features_sublist (after_flag : bool) (l : list string) :
  sublist (skip_features after_flag l) l
  /\ includes "--features" (skip_features after_flag l) = false.
Proof.
  revert after_flag; induction l as [|a l IH]; intros after_flag.
  - split; [constructor|reflexivity].
  - cbn [skip_features].
    destruct (IH (String.eqb a "--features")) as [Hsub Hflag].
    destruct (String.eqb a "--features") eqn:Ha; cbn [orb app].
    + split; [by constructor|exact Hflag].
    + destruct after_flag; cbn [app].
      * split; [by constructor|exact Hflag].
      * split; [by constructor|].
        unfold includes in *; cbn [existsb].
        by rewrite String.eqb_sym, Ha, Hflag.
Qed.

(** X17.  The arguments that the development script passes through are
    arguments it was given, in the order it was given them, and
    [--features] is never one of them. *)
Theorem filteredArgs_sublist (args : list string) :
  sublist (filteredArgs args) args
  /\ includes "--features" (filteredArgs args) = false.
Proof. rewrite filteredArgs_skip_features. apply skip_features_sublist. Qed.

(** X18.  The GPU check of the development script fails in two cases and
    no other: the feature is "metal" and the platform is not macOS or
    [--release] is not among the arguments; the feature is "hipblas" and
    the platform is Windows or macOS. *)
Theorem checkGpuConfig_fails_iff (platform : string) (args : list string) :
  checkGpuConfig platform args = false
  <-> (gpuFeature args = Some "metal"
       /\ (platform <> "darwin" \/ includes "--release" args = false))
      \/ (gpuFeature args = Some "hipblas"
          /\ (platform = "win32" \/ platform = "darwin")).
Proof.
  unfold checkGpuConfig, gpu.
  destruct (gpuFeature args) as [feature|]; [|split; [discriminate|]].
  2:{ intros [[? _]|[? _]]; discriminate. }
  assert (Hdarwin : String.eqb platform "darwin" = true -> platform = "darwin")
    by apply String.eqb_eq.
  destruct (String.eqb feature "") eqn:Hempty; unfold truthy; rewrite Hempty;
    cbn [negb].
  { apply String.eqb_eq in Hempty; subst. split; [discriminate|].
    intros [[? _]|[? _]]; discriminate. }
  unfold gpuConfig.
  destruct (String.eqb feature "metal") eqn:Hmetal.
  { apply String.eqb_eq in Hmetal; subst feature. cbn.
    destruct (String.eqb platform "darwin") eqn:Hp; cbn.
    - destruct (includes "--release" args) eqn:Hr; cbn.
      + split; [discriminate|].
        intros [[_ [Hn|Hn]]|[Hn _]]; try discriminate.
        apply String.eqb_eq in Hp. contradiction.
      + split; [intros _|reflexivity]. left. split; [reflexivity|by right].
    - split; [intros _|reflexivity]. left. split; [reflexivity|]. left.
      by apply String.eqb_neq. }
  destruct (String.eqb feature "cuda") eqn:Hcuda.
  { apply String.eqb_eq in Hcuda; subst feature. cbn.
    split; [discriminate|]. intros [[? _]|[? _]]; discriminate. }
  destruct (String.eqb feature "vulkan") eqn:Hvulkan.
  { apply String.eqb_eq in Hvulkan; subst feature. cbn.
    split; [discriminate|]. intros [[? _]|[? _]]; discriminate. }
  destruct (String.eqb feature "hipblas") eqn:Hhip.
  { apply String.eqb_eq in Hhip; subst feature. cbn.
    destruct (String.eqb platform "win32") eqn:Hw; cbn.
    - split; [intros _|reflexivity]. right. split; [reflexivity|]. left.
      by apply String.eqb_eq.
    - destruct (String.eqb platform "darwin") eqn:Hp; cbn.
      + split; [intros _|reflexivity]. right. split; [reflexivity|]. right.
        by apply String.eqb_eq.
      + split; [discriminate|].
        apply String.eqb_neq in Hw, Hp.
        intros [[? _]|[_ [?|?]]]; try discriminate; contradiction. }
  split; [discriminate|].
  apply String.eqb_neq in Hmetal, Hhip.
  intros [[? _]|[? _]]; congruence.
Qed.


(** ** The clean script *)

Lemma semit_nil {A} (x : A * list ScriptEvent) : semit [] x = x.
Proof. by destruct x. Qed.

Lemma semit_semit {A} (e1 e2 : list ScriptEvent) (x : A * list ScriptEvent) :
  semit e1 (semit e2 x) = semit (e1 ++ e2) x.
Proof. unfold semit; simpl. by rewrite app_assoc. Qed.

(** A script followed by another: the second one runs unless the first one
    has exited. *)
Lemma run_script_sbind {A B} (m : Machine) (s : Script A)
    (f : A -> Script B) (h : list ScriptEvent) :
  run_script m (sbind s f) h
  = match (run_script m s h).1 with
    | Some a =>
        semit (run_script m s h).2
          (run_script m (f a) (h ++ (run_script m s h).2))
    | None => (None, (run_script m s h).2)
    end.
Proof.
  revert h; induction s as [a|l k IH|k IH|p k IH|p k IH|k IH|code];
    intros h; simpl.
  - by rewrite app_nil_r, semit_nil.
  - rewrite IH. destruct (run_script m k _).1;
      [by rewrite semit_semit, <- app_assoc|reflexivity].
  - rewrite IH. destruct (run_script m (k _) _).1;
      [by rewrite semit_semit, <- app_assoc|reflexivity].
  - rewrite IH. destruct (run_script m (k _) _).1;
      [by rewrite semit_semit, <- app_assoc|reflexivity].
  - rewrite IH. destruct (run_script m (k _) _).1;
      [by rewrite semit_semit, <- app_assoc|reflexivity].
  - rewrite IH. destruct (run_script m (k _) _).1;
      [by rewrite semit_semit, <- app_assoc|reflexivity].
  - reflexivity.
Qed.

(** Decide every answer of the machine that the run depends on. *)
Ltac decide_answers :=
  repeat match goal with
  | |- context [cargo_clean_outcome ?m ?h] =>
      let o := fresh "cleaned" in
      destruct (cargo_clean_outcome m h) as [[]|?] eqn:o; simpl
  | |- context [exists_answer ?m ?h ?p] =>
      let o := fresh "found" in
      destruct (exists_answer m h p) eqn:o; simpl
  | |- context [rm_outcome ?m ?h ?p] =>
      let o := fresh "removed" in
      destruct (rm_outcome m h p) as [[]|?] eqn:o; simpl
  end.

Lemma cleanBasic_total (m : Machine) (h : list ScriptEvent) :
  exists outcome, (run_script m cleanBasic h).1 = Some outcome.
Proof. unfold cleanBasic; simpl. decide_answers; eauto. Qed.


Lemma exit_codes_app (t1 t2 : list ScriptEvent) :
  exit_codes (t1 ++ t2) = exit_codes t1 ++ exit_codes t2.
Proof. induction t1 as [|[] t1 IH]; simpl; congruence. Qed.

Lemma removals_app (t1 t2 : list ScriptEvent) :
  removals (t1 ++ t2) = removals t1 ++ removals t2.
Proof. induction t1 as [|[] t1 IH]; simpl; congruence. Qed.

Lemma homes_app (t1 t2 : list ScriptEvent) :
  homes (t1 ++ t2) = homes t1 ++ homes t2.
Proof. induction t1 as [|[] t1 IH]; simpl; congruence. Qed.

Lemma checked_from_any (previous : option ScriptEvent)
    (tr : list ScriptEvent) :
  checked_from None tr -> checked_from previous tr.
Proof.
  destruct tr as [|ev tr]; [done|]. simpl. intros [Hev Htr].
  split; [|exact Htr]. by destruct ev.
Qed.

Lemma checked_from_app (previous : option ScriptEvent)
    (t1 t2 : list ScriptEvent) :
  checked_from previous t1 -> checked_from None t2 ->
  checked_from previous (t1 ++ t2).
Proof.
  revert previous; induction t1 as [|ev t1 IH]; intros previous H1 H2; simpl.
  - by apply checked_from_any.
  - destruct H1 as [Hev H1]. split; [exact Hev|]. by apply IH.
Qed.

Lemma removals_checked_app (t1 t2 : list ScriptEvent) :
  removals_checked t1 -> removals_checked t2 -> removals_checked (t1 ++ t2).
Proof. apply checked_from_app. Qed.

(** No path under [.cargo] of the home directory is the target
    directory. *)
Lemma cargo_path_not_target (home rest : Path) :
  home ++ ".cargo" :: rest <> targetPath.
Proof.
  unfold targetPath. destruct home as [|a [|b [|c home]]]; simpl; intros H;
    inversion H.
Qed.

(** [cleanBasic] removes at most the target directory and never asks for
    the home directory. *)
Lemma cleanBasic_run (m : Machine) (h : list ScriptEvent) :
  clean_run [targetPath] (run_script m cleanBasic h)
  /\ homes (run_script m cleanBasic h).2 = [].
Proof.
  unfold clean_run, removals_checked, cleanBasic; simpl. decide_answers;
    (split; [|reflexivity]);
    (split; [repeat split; auto|]); (split; [reflexivity|]);
    (split; [try reflexivity; by apply sublist_nil_l|]);
    first [ left; split; [reflexivity|]; intros [message Hin]; simpl in Hin;
            intuition discriminate
          | right; eexists [_; _; _; _], _; repeat split ].
Qed.

(** One pass of the loop over the cache paths: it returns, whatever
    happens to the removal. *)
Lemma removeCachePath_run (m : Machine) (p : Path) (h : list ScriptEvent) :
  (run_script m (removeCachePath p) h).1 = Some tt
  /\ removals_checked (run_script m (removeCachePath p) h).2
  /\ exit_codes (run_script m (removeCachePath p) h).2 = []
  /\ homes (run_script m (removeCachePath p) h).2 = []
  /\ sublist (removals (run_script m (removeCachePath p) h).2) [p]
  /\ (forall message,
        In (EvRmSync targetPath (Err message))
           (run_script m (removeCachePath p) h).2 -> p = targetPath).
Proof.
  unfold removals_checked, removeCachePath; simpl. decide_answers;
    repeat split; auto; try reflexivity; try (by apply sublist_nil_l);
    intros message Hin; simpl in Hin;
    repeat (destruct Hin as [Hin|Hin]; try discriminate Hin);
    try contradiction; by injection Hin.
Qed.

Lemma forEach_removeCachePath_run (m : Machine) (paths : list Path)
    (h : list ScriptEvent) :
  let out := run_script m (forEach removeCachePath paths) h in
  out.1 = Some tt
  /\ removals_checked out.2 /\ exit_codes out.2 = [] /\ homes out.2 = []
  /\ sublist (removals out.2) paths
  /\ (forall message,
        In (EvRmSync targetPath (Err message)) out.2 -> In targetPath paths).
Proof.
  revert h; induction paths as [|p paths IH]; intros h.
  - simpl. repeat split; auto; try (by intros ? []).
  - cbn [forEach]. cbv zeta. rewrite run_script_sbind.
    destruct (removeCachePath_run m p h)
      as (Hval & Hchk & Hexit & Hhome & Hsub & Hfail).
    rewrite Hval.
    destruct (IH (h ++ (run_script m (removeCachePath p) h).2))
      as (Hval' & Hchk' & Hexit' & Hhome' & Hsub' & Hfail').
    cbn [semit fst snd]. split; [exact Hval'|].
    split; [by apply removals_checked_app|].
    split; [by rewrite exit_codes_app, Hexit, Hexit'|].
    split; [by rewrite homes_app, Hhome, Hhome'|].
    split.
    + rewrite removals_app. by apply (sublist_app _ [p]).
    + intros message Hin. apply in_app_or in Hin as [Hin|Hin].
      * left. by apply (Hfail message).
      * right. by apply (Hfail' message).
Qed.

Lemma not_in_cache_paths (home : Path) :
  ~ In targetPath (cargoCachePaths home).
Proof.
  unfold cargoCachePaths. intros [H|[H|[]]];
    exact (cargo_path_not_target _ _ H).
Qed.

(** [cleanDeep] is [cleanBasic] and then, unless [cleanBasic] threw, the
    two cache paths under the home directory. *)
Lemma cleanDeep_run (m : Machine) (h : list ScriptEvent) :
  exists home,
    clean_run (targetPath :: cargoCachePaths home) (run_script m cleanDeep h)
    /\ sublist (homes (run_script m cleanDeep h).2) [home].
Proof.
  unfold cleanDeep. rewrite run_script_sbind.
  destruct (cleanBasic_run m h) as [(Hchk & Hexit & Hsub & Hcase) Hhome].
  destruct (run_script m cleanBasic h) as [v1 t1]. cbn [fst snd] in *.
  destruct Hcase as [[-> Hnofail]|(before & message & -> & Htr & Hrem)].
  - cbn -[forEach cargoCachePaths].
    set (home := homedir_value m ((h ++ t1) ++ [EvPrint line_deep_cleaning])).
    rewrite run_script_sbind.
    set (h2 := ((h ++ t1) ++ [EvPrint line_deep_cleaning]) ++ [EvHomedir home]).
    destruct (forEach_removeCachePath_run m (cargoCachePaths home) h2)
      as (Hval & Hchk' & Hexit' & Hhome' & Hsub' & Hfail).
    destruct (run_script m (forEach removeCachePath (cargoCachePaths home)) h2)
      as [v2 t2].
    cbn [fst snd] in *. subst v2.
    cbn -[cargoCachePaths]. exists home.
    unfold clean_run, semit; cbn [fst snd]. rewrite app_nil_r.
    split; [split|].
    + apply removals_checked_app; [exact Hchk|].
      apply (removals_checked_app [_]); [by repeat split|].
      apply (removals_checked_app [_]); [by repeat split|].
      apply removals_checked_app; [exact Hchk'|by repeat split].
    + rewrite !exit_codes_app, !removals_app, Hexit, Hexit'.
      cbn [exit_codes removals app]. rewrite app_nil_r.
      split; [reflexivity|].
      split; [by apply (sublist_app _ [targetPath])|].
      left. split; [reflexivity|].
      intros [msg Hin]. apply in_app_or in Hin as [Hin|Hin].
      { apply Hnofail. by exists msg. }
      destruct Hin as [Hin|[Hin|Hin]]; try discriminate Hin.
      apply in_app_or in Hin as [Hin|Hin].
      { exact (not_in_cache_paths home (Hfail msg Hin)). }
      destruct Hin as [Hin|[]]. discriminate Hin.
    + rewrite homes_app, Hhome. cbn [homes app].
      rewrite homes_app, Hhome'. reflexivity.
  - exists []. unfold clean_run, semit; cbn [run_script fst snd].
    rewrite app_nil_r. split.
    + split; [exact Hchk|]. split; [exact Hexit|].
      split; [by apply (sublist_inserts_r _ _ [targetPath])|].
      right. by exists before, message.
    + rewrite Hhome. by apply sublist_nil_l.
Qed.

(** [cleanFull] is [cleanDeep] and then, unless [cleanDeep] threw, the
    sources under the home directory. *)
Lemma cleanFull_run (m : Machine) (h : list ScriptEvent) :
  exists home1 home2,
    clean_run (targetPath :: cargoCachePaths home1 ++ [cargoSrcPath home2])
      (run_script m cleanFull h)
    /\ sublist (homes (run_script m cleanFull h).2) [home1; home2].
Proof.
  unfold cleanFull. rewrite run_script_sbind.
  destruct (cleanDeep_run m h)
    as (home1 & (Hchk & Hexit & Hsub & Hcase) & Hhome).
  destruct (run_script m cleanDeep h) as [v1 t1]. cbn [fst snd] in *.
  exists home1.
  destruct Hcase as [[-> Hnofail]|(before & message & -> & Htr & Hrem)].
  - cbn -[cargoCachePaths cargoSrcPath].
    set (home2 := homedir_value m ((h ++ t1) ++ [EvPrint line_full_cleaning])).
    exists home2.
    assert (Hsub2 : forall l, sublist l [cargoSrcPath home2] ->
              sublist (removals t1 ++ l)
                (targetPath :: cargoCachePaths home1 ++ [cargoSrcPath home2])).
    { intros l Hl.
      by apply (sublist_app _ (targetPath :: cargoCachePaths home1)). }
    assert (Hhome2 : sublist (homes t1 ++ [home2]) [home1; home2])
      by (by apply (sublist_app _ [home1] [home2] [home2])).
    assert (Hsrc : forall message,
              EvRmSync (cargoSrcPath home2) (Err message)
              <> EvRmSync targetPath (Err message)).
    { intros message H. injection H as H.
      exact (cargo_path_not_target _ _ H). }
    decide_answers; unfold clean_run, semit; cbn [fst snd];
      rewrite ?app_nil_r;
      (split; [split|]);
      try (rewrite homes_app; exact Hhome2);
      try (apply removals_checked_app; [exact Hchk|by repeat split]);
      rewrite exit_codes_app, removals_app, Hexit;
      (split; [reflexivity|]);
      (split; [apply Hsub2; cbn; first [reflexivity|by apply sublist_nil_l]|]);
      left; (split; [reflexivity|]);
      intros [msg Hin]; apply in_app_or in Hin as [Hin|Hin];
      try (apply Hnofail; by exists msg);
      cbn in Hin;
      repeat (destruct Hin as [Hin|Hin]; try discriminate Hin);
      try contradiction;
      injection Hin as Hin _; exact (cargo_path_not_target _ _ Hin).
  - exists []. unfold clean_run, semit; cbn [run_script fst snd].
    rewrite app_nil_r. split.
    + split; [exact Hchk|]. split; [exact Hexit|].
      split.
      { rewrite (app_comm_cons _ _ targetPath).
        by apply sublist_inserts_r. }
      right. by exists before, message.
    + by apply (sublist_inserts_r [[]] _ [home1]).
Qed.

(** The function [main] runs for a level, with what it may remove. *)
Lemma cleanMain_level (m : Machine) (args : list string)
    (h : list ScriptEvent) :
  exists prog allowed home1 home2,
    cleanMain args
    = sbind prog (fun outcome =>
        match outcome with
        | Ok _ => SRet tt
        | Err message =>
            do* _ := print (line_error_during_cleaning message) in SExit 1
        end)
    /\ clean_run allowed (run_script m prog h)
    /\ sublist (homes (run_script m prog h).2) [home1; home2]
    /\ allowed
       = (if String.eqb (cleanLevel args) "deep"
          then targetPath :: cargoCachePaths home1
          else if String.eqb (cleanLevel args) "full"
          then targetPath :: cargoCachePaths home1 ++ [cargoSrcPath home2]
          else [targetPath])
    /\ (String.eqb (cleanLevel args) "deep" = false ->
        String.eqb (cleanLevel args) "full" = false ->
        homes (run_script m prog h).2 = []).
Proof.
  unfold cleanMain.
  destruct (String.eqb (cleanLevel args) "deep");
    [|destruct (String.eqb (cleanLevel args) "full")].
  - destruct (cleanDeep_run m h) as (home1 & Hrun & Hhome).
    exists cleanDeep, (targetPath :: cargoCachePaths home1), home1, [].
    split; [reflexivity|]. split; [exact Hrun|].
    split; [by apply (sublist_inserts_r [[]] _ [home1])|].
    split; [reflexivity|discriminate].
  - destruct (cleanFull_run m h) as (home1 & home2 & Hrun & Hhome).
    exists cleanFull, (targetPath :: cargoCachePaths home1
                       ++ [cargoSrcPath home2]), home1, home2.
    split; [reflexivity|]. split; [exact Hrun|]. split; [exact Hhome|].
    split; [reflexivity|discriminate].
  - destruct (cleanBasic_run m h) as [Hrun Hhome].
    exists cleanBasic, [targetPath], [], [].
    split; [reflexivity|]. split; [exact Hrun|].
    split; [rewrite Hhome; by apply sublist_nil_l|].
    split; [reflexivity|auto].
Qed.

(** X19.  The clean script exits with a code in one case only: the target
    directory was found and its removal failed.  It then stops at once,
    after printing the error, with code 1, at every level.  A [cargo clean]
    that fails and a removal under the home directory that fails are
    printed and the script goes on to its end. *)
Theorem clean_exits_iff_target_removal_fails (m : Machine)
    (args : list string) (h : list ScriptEvent) :
  let out := run_script m (cleanMain args) h in
  (out.1 = Some tt /\ exit_codes out.2 = []
   /\ ~ exists message, In (EvRmSync targetPath (Err message)) out.2)
  \/ (out.1 = None /\ exit_codes out.2 = [1]
      /\ exists before message,
           out.2 = before ++ [EvRmSync targetPath (Err message);
                              EvPrint (line_error_during_cleaning message);
                              EvExit 1]
           /\ removals before = []).
Proof.
  destruct (cleanMain_level m args h)
    as (prog & allowed & home1 & home2 & -> & Hrun & _).
  cbv zeta. rewrite run_script_sbind.
  destruct Hrun as (Hchk & Hexit & Hsub & Hcase).
  destruct (run_script m prog h) as [v t]. cbn [fst snd] in *.
  destruct Hcase as [[-> Hnofail]|(before & message & -> & -> & Hrem)].
  - left. unfold semit; cbn. rewrite app_nil_r. auto.
  - right. unfold semit; cbn. split; [reflexivity|]. split.
    + rewrite exit_codes_app, Hexit. reflexivity.
    + exists before, message. by rewrite <- app_assoc.
Qed.

Lemma checked_from_removal (previous : option ScriptEvent)
    (before after : list ScriptEvent) (p : Path) (res : Result unit string) :
  checked_from previous (before ++ EvRmSync p res :: after) ->
  (before = [] /\ previous = Some (EvExistsSync p true))
  \/ exists before', before = before' ++ [EvExistsSync p true].
Proof.
  revert previous; induction before as [|ev before IH]; intros previous.
  - intros [Hprev _]. by left.
  - intros [_ Hchk]. right.
    destruct (IH (Some ev) Hchk) as [[-> Hev]|[before' ->]].
    + exists []. by injection Hev as ->.
    + by exists (ev :: before').
Qed.

(** X20.  The clean script removes a path only right after [existsSync]
    found it: every call of [rmSync] comes directly after a call of
    [existsSync] on the same path that answered true, at every level. *)
Theorem clean_checks_before_removing (m : Machine) (args : list string)
    (h : list ScriptEvent) (before after : list ScriptEvent) (p : Path)
    (res : Result unit string) :
  (run_script m (cleanMain args) h).2 = before ++ EvRmSync p res :: after ->
  exists before', before = before' ++ [EvExistsSync p true].
Proof.
  assert (Hchk : removals_checked (run_script m (cleanMain args) h).2).
  { destruct (cleanMain_level m args h)
      as (prog & allowed & home1 & home2 & -> & Hrun & _).
    rewrite run_script_sbind.
    destruct Hrun as (Hchk & _ & _ & Hcase).
    destruct (run_script m prog h) as [v t]. cbn [fst snd] in *.
    destruct Hcase as [[-> _]|(b & message & -> & _ & _)];
      unfold semit; cbn; [by rewrite app_nil_r|].
    apply removals_checked_app; [exact Hchk|by repeat split]. }
  intros Htr. rewrite Htr in Hchk.
  destruct (checked_from_removal _ _ _ _ _ Hchk) as [[_ Hnone]|Hbefore];
    [discriminate Hnone|exact Hbefore].
Qed.

Lemma clean_checks_before_removing_witness :
  let m := stub_machine [["home"; "dev"; ".cargo"; "registry"; "cache"]] in
  let p := ["home"; "dev"; ".cargo"; "registry"; "cache"] in
  exists before after,
    (run_script m (cleanMain ["deep"]) []).2
    = before ++ EvRmSync p (Err "EPERM: operation not permitted") :: after
    /\ exists before', before = before' ++ [EvExistsSync p true].
Proof.
  intros m p.
  eexists [_; _; _; _; _; _; _; _; _; _], _.
  assert (Htr : (run_script m (cleanMain ["deep"]) []).2
                = [EvPrint line_cleaning_build_cache; EvCargoClean (Ok tt);
                   EvPrint line_cargo_clean_completed;
                   EvExistsSync targetPath true; EvRmSync targetPath (Ok tt);
                   EvPrint line_removed_target;
                   EvPrint line_build_cache_cleared;
                   EvPrint line_deep_cleaning; EvHomedir ["home"; "dev"];
                   EvExistsSync p true]
                  ++ EvRmSync p (Err "EPERM: operation not permitted")
                  :: [EvPrint (line_failed_to_remove p
                                 "EPERM: operation not permitted");
                      EvExistsSync ["home"; "dev"; ".cargo"; ".package-cache"]
                        true;
                      EvRmSync ["home"; "dev"; ".cargo"; ".package-cache"]
                        (Ok tt);
                      EvPrint (line_removed
                                 ["home"; "dev"; ".cargo"; ".package-cache"]);
                      EvPrint line_deep_done]) by reflexivity.
  split; [exact Htr|].
  exact (clean_checks_before_removing m ["deep"] [] _ _ p _ Htr).
Defined.


(** X22.  The levels nest: everything [cleanBasic] does is the beginning
    of what [cleanDeep] does, and everything [cleanDeep] does is the
    beginning of what [cleanFull] does, on the same machine. *)
Theorem clean_levels_nest (m : Machine) (h : list ScriptEvent) :
  (run_script m cleanBasic h).2 `prefix_of` (run_script m cleanDeep h).2
  /\ (run_script m cleanDeep h).2 `prefix_of` (run_script m cleanFull h).2.
Proof.
  split.
  - unfold cleanDeep. rewrite run_script_sbind.
    destruct (run_script m cleanBasic h).1; [|reflexivity].
    unfold semit; cbn [snd]. by apply prefix_app_r.
  - unfold cleanFull. rewrite run_script_sbind.
    destruct (run_script m cleanDeep h).1; [|reflexivity].
    unfold semit; cbn [snd]. by apply prefix_app_r.
Qed.

(** ** The status writes around the adapter call *)

(** X23.  When [transcribeRecording] calls an adapter, the write of
    TRANSCRIBING has been made and answered before the call, and the one
    other status write is made after the adapter has answered. *)
Theorem status_writes_bracket_the_call (w : World) (r : Recording)
    (h : Trace) (c : AdapterCall) :
  In c (adapter_calls (run w (transcribeRecording r) h).2) ->
  exists before after res,
    (run w (transcribeRecording r) h).2
    = before ++ EvTranscribeCall c :: EvTranscribeRet c res :: after
    /\ status_writes before = [with_status r TRANSCRIBING]
    /\ length (status_write_outcomes before) = 1%nat
    /\ status_writes after = [final_write r res]
    /\ length (status_write_outcomes after) = 1%nat.
Proof.
  intros Hin. destruct (blob r) as [b|] eqn:Hb.
  2:{ unfold transcribeRecording in Hin. rewrite Hb in Hin. destruct Hin. }
  destruct (transcribeRecording_trace w r b h Hb)
    as (o1 & o2 & pre & sel & post & t0 & t1 & h1 & Htr & Hpre & Hpost & _
        & _ & _ & _ & Hsel).
  assert (Hc : sel = [EvTranscribeCall c;
                      EvTranscribeRet c (run w (transcribeRecording r) h).1]).
  { rewrite Htr in Hin. revert Hin.
    destruct Hsel as [[_ (c' & _ & ->)]|[_ [_ ->]]]; read_trace.
    - intros [->|[]]. reflexivity.
    - intros []. }
  rewrite Hc in Htr.
  exists (write_events (with_status r TRANSCRIBING) o1 warnTranscribing
          ++ pre),
         (post ++ write_events
                    (final_write r (run w (transcribeRecording r) h).1) o2
                    (final_warning (run w (transcribeRecording r) h).1)),
         (run w (transcribeRecording r) h).1.
  split; [rewrite Htr, <- !app_assoc; reflexivity|].
  repeat split; read_trace; reflexivity.
Qed.

Lemma status_writes_bracket_the_call_witness :
  let w := stub_world "Groq" answer_by_size false false in
  let c := {| call_adapter := groq; call_blob := wav 2;
              call_options :=
                set_apiKey_model (shared_options (stub_settings "Groq" ""))
                  "gsk" "whisper-large-v3" |} in
  In c (adapter_calls (run w (transcribeRecording recording_r2) []).2)
  /\ exists before after res,
       (run w (transcribeRecording recording_r2) []).2
       = before ++ EvTranscribeCall c :: EvTranscribeRet c res :: after
       /\ status_writes before = [with_status recording_r2 TRANSCRIBING]
       /\ length (status_write_outcomes before) = 1%nat
       /\ status_writes after = [final_write recording_r2 res]
       /\ length (status_write_outcomes after) = 1%nat.
Proof.
  intros w c.
  assert (Hin : In c (adapter_calls
                        (run w (transcribeRecording recording_r2) []).2))
    by (vm_compute; left; reflexivity).
  split; [exact Hin|].
  exact (status_writes_bracket_the_call w recording_r2 [] c Hin).
Defined.
